(** * RobotTopology: the point-cloud loader of [data_loader.py]

    A shallow embedding of [PointCloudLoader] and of the NumPy operations it
    calls, followed by the properties of voxel-grid downsampling and of the
    Y-range filter.

    Coordinates are IEEE 754 binary64 values, modelled with the executable
    specification of floating-point arithmetic of the Standard Library
    ([SpecFloat]): zeros, infinities, NaN and finite values are all present,
    and division is correctly rounded. *)

From Stdlib Require Import List ZArith Bool Arith Lia.
From Stdlib Require Import Permutation Sorted.
From Stdlib Require Import Floats.SpecFloat.
From Stdlib Require String.
Import ListNotations.

Set Implicit Arguments.

(* ================================================================= *)
(** * binary64 *)

Module F64.

Definition prec : Z := 53.
Definition emax : Z := 1024.

Definition float := spec_float.

Definition nan : float := S754_nan.
Definition pinf : float := S754_infinity false.
Definition ninf : float := S754_infinity true.
Definition zero : float := S754_zero false.

(** The binary64 value nearest to an integer. *)
Definition of_Z (z : Z) : float := binary_normalize prec emax z 0 false.

(** [x / y], correctly rounded (NumPy's [true_divide] on float64). *)
Definition div (x y : float) : float := SFdiv prec emax x y.

(** The binary64 value of the decimal literal [n / 10^k]; both operands
    are exact below [2^53], so the quotient is the correctly rounded
    value a decimal parser produces ([dec 4 1] is [0.4]). *)
Definition dec (n : Z) (k : nat) : float := div (of_Z n) (of_Z (10 ^ Z.of_nat k)).

(** IEEE comparisons: every comparison with a NaN is false except [!=]. *)
Definition eqb (x y : float) : bool := SFeqb x y.
Definition neqb (x y : float) : bool := negb (SFeqb x y).
Definition ltb (x y : float) : bool := SFltb x y.
Definition leb (x y : float) : bool := SFleb x y.
Definition geb (x y : float) : bool :=
  match SFcompare x y with
  | Some (Gt | Eq) => true
  | _ => false
  end.

Definition is_nan (x : float) : bool :=
  match x with S754_nan => true | _ => false end.

(** Nearest integer to [m / 2^k], ties to the even one. *)
Definition round_half_even (m : Z) (k : Z) : Z :=
  let d := Z.shiftl 1 k in
  let q := Z.div m d in
  let r := Z.modulo m d in
  match Z.compare (2 * r) d with
  | Lt => q
  | Gt => q + 1
  | Eq => if Z.even q then q else q + 1
  end.

(** [rint]: round to an integral value in the current (to nearest, ties
    to even) mode.  A finite value with a non-negative exponent is
    already integral; zeros, infinities and NaN are returned unchanged;
    the sign of a result that rounds to zero is the sign of the
    argument. *)
Definition rint (x : float) : float :=
  match x with
  | S754_finite s m e =>
      if (0 <=? e)%Z then x
      else
        let q := round_half_even (Zpos m) (- e) in
        binary_normalize prec emax (if s then (- q)%Z else q) 0 s
  | _ => x
  end.

End F64.

(* ================================================================= *)
(** * Outcomes of a call *)

(** The exceptions the modelled calls can raise. *)
Inductive exn : Type :=
| IndexError
| ValueError.

(** A call either returns a value or raises. *)
Inductive outcome (A : Type) : Type :=
| Return (a : A)
| Raise (e : exn).

Arguments Return {A} a.
Arguments Raise {A} e.

(* ================================================================= *)
(** * Sorting and [unique] over an arbitrary element type

    [numpy.unique(ar, return_index=True)] sorts the positions of [ar]
    with a stable sort ([argsort(kind='mergesort')]), gathers
    [aux = ar[perm]], flags every position whose element differs from its
    predecessor ([mask[0] = True], [mask[1:] = aux[1:] != aux[:-1]]) and
    returns [(aux[mask], perm[mask])].  The permutation and the gathered
    elements are kept side by side as a list of (position, element)
    pairs. *)

Section Unique1d.

Variable K : Type.
(** the three-way comparison the sort uses *)
Variable cmp : K -> K -> comparison.
(** the elementwise [!=] *)
Variable ne : K -> K -> bool.

Definition enumerate (ar : list K) : list (nat * K) :=
  combine (seq 0 (length ar)) ar.

(** One insertion step: [x] goes in front of the first element that
    does not compare below it, hence in front of its equals. *)
Fixpoint insert (x : nat * K) (l : list (nat * K)) : list (nat * K) :=
  match l with
  | [] => [x]
  | y :: l' =>
      match cmp (snd x) (snd y) with
      | Gt => y :: insert x l'
      | _ => x :: l
      end
  end.

(** A stable sort: elements that compare equal keep their input
    order. Elements are inserted from the last to the first. *)
Fixpoint stable_sort (l : list (nat * K)) : list (nat * K) :=
  match l with
  | [] => []
  | x :: l' => insert x (stable_sort l')
  end.

(** The positions of [ar] next to its elements, sorted. *)
Definition sorted_pairs (ar : list K) : list (nat * K) :=
  stable_sort (enumerate ar).

Definition argsort (ar : list K) : list nat :=
  map fst (sorted_pairs ar).

(** [aux[1:] != aux[:-1]], with [prev] the element before [l]. *)
Fixpoint adjacent_ne (prev : K) (l : list K) : list bool :=
  match l with
  | [] => []
  | a :: t => ne a prev :: adjacent_ne a t
  end.

Definition first_flags (aux : list K) : list bool :=
  match aux with
  | [] => []
  | a :: t => true :: adjacent_ne a t
  end.

(** [xs[mask]] for a mask as long as [xs]. *)
Fixpoint compress (A : Type) (mask : list bool) (xs : list A) : list A :=
  match mask, xs with
  | b :: m, x :: t => if b then x :: compress m t else compress m t
  | _, _ => []
  end.

Definition unique1d (ar : list K) : list K * list nat :=
  let sorted := sorted_pairs ar in
  let perm := map fst sorted in
  let aux := map snd sorted in
  let mask := first_flags aux in
  (compress mask aux, compress mask perm).

(** The order a stable sort of indexed elements produces: by element,
    and by position among elements that compare equal. *)
Definition before (x y : nat * K) : Prop :=
  cmp (snd x) (snd y) = Lt \/ (cmp (snd x) (snd y) = Eq /\ fst x < fst y).

Definition le_key (x y : nat * K) : Prop := cmp (snd x) (snd y) <> Gt.

(** The number of distinct elements of a list: an element counts when
    none of the elements before it equals it. *)
Fixpoint distinct_from (seen l : list K) : nat :=
  match l with
  | [] => 0
  | k :: t =>
      (if existsb (fun s => negb (ne k s)) seen then 0 else 1)
      + distinct_from (seen ++ [k]) t
  end.

Definition num_distinct (l : list K) : nat := distinct_from [] l.

(** No two elements of the list are equal. *)
Fixpoint pairwise_ne (l : list K) : bool :=
  match l with
  | [] => true
  | k :: t => forallb (fun k' => ne k' k) t && pairwise_ne t
  end.

End Unique1d.

(* ================================================================= *)
(** * The NumPy operations on [(n, 3)] float64 arrays *)

Module Np.

(** A row of an [(n, 3)] array. *)
Record row : Type := Row { c0 : F64.float; c1 : F64.float; c2 : F64.float }.

(** An array of shape [(n, 3)] and dtype float64. *)
Definition ndarray : Type := list row.

Definition row_map (f : F64.float -> F64.float) (r : row) : row :=
  Row (f (c0 r)) (f (c1 r)) (f (c2 r)).

(** [a / s] for a scalar [s]: elementwise, never raises (a division
    by zero yields an infinity or a NaN). *)
Definition true_divide (a : ndarray) (s : F64.float) : ndarray :=
  map (row_map (fun x => F64.div x s)) a.

(** [np.round(a)] with [decimals = 0]: elementwise [rint]; the result
    is still float64. *)
Definition round (a : ndarray) : ndarray := map (row_map F64.rint) a.

(** The sort order of float64: [a] sorts before [b] when [a < b] or
    when [b] is a NaN and [a] is not (NaNs sort last). *)
Definition DOUBLE_lt (a b : F64.float) : bool :=
  F64.ltb a b || (F64.neqb b b && F64.eqb a a).

Definition DOUBLE_compare (a b : F64.float) : comparison :=
  if DOUBLE_lt a b then Lt
  else if DOUBLE_lt b a then Gt
  else Eq.

(** Rows are compared field by field, the first field that differs
    decides. *)
Definition VOID_compare (r s : row) : comparison :=
  match DOUBLE_compare (c0 r) (c0 s) with
  | Eq =>
      match DOUBLE_compare (c1 r) (c1 s) with
      | Eq => DOUBLE_compare (c2 r) (c2 s)
      | c => c
      end
  | c => c
  end.

(** [r == s] and [r != s] on rows: all fields equal, some field
    different (a NaN is different from everything). *)
Definition row_eq (r s : row) : bool :=
  F64.eqb (c0 r) (c0 s) && F64.eqb (c1 r) (c1 s) && F64.eqb (c2 r) (c2 s).

Definition row_ne (r s : row) : bool :=
  F64.neqb (c0 r) (c0 s) || F64.neqb (c1 r) (c1 s) || F64.neqb (c2 r) (c2 s).

(** [np.unique(a, axis=0, return_index=True)]: the sorted unique rows
    and, for each, the position of its first occurrence in [a]. *)
Definition unique_axis0 (a : ndarray) : ndarray * list nat :=
  unique1d VOID_compare row_ne a.

(** [a[idx]] for an integer index array: a new array; a position past
    the end raises [IndexError]. *)
Fixpoint take (a : ndarray) (idx : list nat) : outcome ndarray :=
  match idx with
  | [] => Return []
  | i :: t =>
      match nth_error a i with
      | None => Raise IndexError
      | Some r =>
          match take a t with
          | Return d => Return (r :: d)
          | Raise e => Raise e
          end
      end
  end.

(** [a[mask]] for a boolean mask: a new array with the rows whose flag
    is set; a mask of another length raises [IndexError]. *)
Definition bool_index (a : ndarray) (mask : list bool) : outcome ndarray :=
  if length mask =? length a then Return (compress mask a)
  else Raise IndexError.

(** [m1 & m2], elementwise. *)
Definition logical_and (m1 m2 : list bool) : list bool :=
  map (fun bb => fst bb && snd bb) (combine m1 m2).

End Np.

Import Np.

(* ================================================================= *)
(** * The loader object, standard output and the call monad *)

(** What a method writes with [print]; the numbers of a formatted line are
    kept as values. *)
Inductive line : Type :=
| NoPointsLoaded
| InfoDownsampled (n : nat) (voxel_size : F64.float)
| InfoFiltered (n : nat) (y_min y_max : F64.float).

(** The attributes of a [PointCloudLoader]; [points] is [None] until a
    file has been loaded. *)
Record PointCloudLoader : Type := Loader {
  filepath : String.string;
  points : option ndarray
}.

(** The state a method call runs in: the object and what was printed so
    far. *)
Record state : Type := State {
  self : PointCloudLoader;
  stdout : list line
}.

(** A method body: it reads and updates the state and returns or raises;
    the state reached when an exception is raised is kept. *)
Definition M (A : Type) : Type := state -> outcome A * state.

Definition ret (A : Type) (a : A) : M A := fun st => (Return a, st).

Definition bind (A B : Type) (c : M A) (k : A -> M B) : M B :=
  fun st =>
    match c st with
    | (Return a, st') => k a st'
    | (Raise e, st') => (Raise e, st')
    end.

Notation "x <- c ;; k" := (bind c (fun x => k))
  (at level 61, c at next level, right associativity).
Notation "c ;;; k" := (bind c (fun _ => k))
  (at level 61, right associativity).

Definition get_points : M (option ndarray) :=
  fun st => (Return (points (self st)), st).

Definition print (l : line) : M unit :=
  fun st => (Return tt, State (self st) (stdout st ++ [l])).

(** An outcome of a library call inside a method. *)
Definition lift (A : Type) (o : outcome A) : M A := fun st => (o, st).

(** [PointCloudLoader(filepath)] *)
Definition init (path : String.string) : PointCloudLoader := Loader path None.

(** [downsample(self, voxel_size)] *)
Definition downsample (voxel_size : F64.float) : M (option ndarray) :=
  pts <- get_points ;;
  match pts with
  | None => ret None
  | Some P =>
      let rounded := Np.round (Np.true_divide P voxel_size) in
      let unique_indices := snd (Np.unique_axis0 rounded) in
      downsampled <- lift (Np.take P unique_indices) ;;
      print (InfoDownsampled (length downsampled) voxel_size) ;;;
      ret (Some downsampled)
  end.

(** [filter_by_y_range(self, y_min, y_max)] *)
Definition filter_by_y_range (y_min y_max : F64.float) : M (option ndarray) :=
  pts <- get_points ;;
  match pts with
  | None =>
      print NoPointsLoaded ;;;
      ret None
  | Some P =>
      let ys := map c1 P in
      let mask := Np.logical_and (map (fun y => F64.geb y y_min) ys)
                                 (map (fun y => F64.leb y y_max) ys) in
      filtered <- lift (Np.bool_index P mask) ;;
      print (InfoFiltered (length filtered) y_min y_max) ;;;
      ret (Some filtered)
  end.

(** The dictionary [get_summary] builds. *)
Record summary : Type := Summary {
  num_points : nat;
  mean : list F64.float;
  min : list F64.float;
  max : list F64.float
}.

Section GetSummary.

(** [np.mean], [np.min] and [np.max] along axis 0, followed by
    [tolist()]; each may raise (the minimum or maximum of an array
    without rows does). *)
Variables np_mean np_min np_max : ndarray -> outcome (list F64.float).

(** [get_summary(self)] *)
Definition get_summary : M (option summary) :=
  pts <- get_points ;;
  match pts with
  | None =>
      print NoPointsLoaded ;;;
      ret None
  | Some P =>
      m <- lift (np_mean P) ;;
      lo <- lift (np_min P) ;;
      hi <- lift (np_max P) ;;
      ret (Some (Summary (length P) m lo hi))
  end.

End GetSummary.

(** A loader holding the point set [S], with nothing printed yet. *)
Definition loaded (S : ndarray) : state :=
  State (Loader String.EmptyString (Some S)) [].

(** What [downsample] returns or raises on the point set [S]. *)
Definition downsample_of (S : ndarray) (v : F64.float) : outcome (option ndarray) :=
  fst (downsample v (loaded S)).

(** What [filter_by_y_range] returns or raises on the point set [S]. *)
Definition filter_of (S : ndarray) (y_min y_max : F64.float) : outcome (option ndarray) :=
  fst (filter_by_y_range y_min y_max (loaded S)).

(** The grouping key of a point: its coordinates divided by the voxel
    size and rounded, as [downsample] computes them. *)
Definition voxel_key (v : F64.float) (p : row) : row :=
  row_map F64.rint (row_map (fun x => F64.div x v) p).

(** Whether two points fall into the same voxel: their keys are equal
    as rows (a key with a NaN equals no key). *)
Definition same_key (v : F64.float) (p q : row) : bool :=
  row_eq (voxel_key v p) (voxel_key v q).

(** The keys of a point set, in the order of its points. *)
Definition keys (v : F64.float) (S : ndarray) : list row :=
  map (voxel_key v) S.

(** Whether [y_min <= y <= y_max] for the second coordinate of [p]. *)
Definition in_y_range (y_min y_max : F64.float) (p : row) : bool :=
  F64.leb y_min (c1 p) && F64.leb (c1 p) y_max.

Definition is_finite (x : F64.float) : bool :=
  match x with
  | S754_zero _ | S754_finite _ _ _ => true
  | _ => false
  end.

Definition is_inf (x : F64.float) : bool :=
  match x with
  | S754_infinity _ => true
  | _ => false
  end.

(** Whether the quotient of a finite coordinate of [p] by [v] is too
    large for binary64, and so for every integer type: it is an
    infinity. *)
Definition key_overflows (v : F64.float) (p : row) : bool :=
  existsb (fun x => is_finite x && is_inf (F64.rint (F64.div x v)))
          [c0 p; c1 p; c2 p].

(** ** Point sets used as examples *)

Module Ex.

Definition f0 : F64.float := F64.zero.
Definition f1 : F64.float := F64.of_Z 1.

(** [[(0.4, 0, 0), (0.1, 0, 0)]] *)
Definition tie : ndarray :=
  [Row (F64.dec 4 1) f0 f0; Row (F64.dec 1 1) f0 f0].

(** [[(1, 0, 0), (0, 0, 0)]] *)
Definition descending : ndarray := [Row f1 f0 f0; Row f0 f0 f0].

(** [[(1e308, 0, 0)]] and the voxel size [1e-10] *)
Definition huge : ndarray := [Row (F64.of_Z (10 ^ 308)) f0 f0].
Definition tiny : F64.float := F64.dec 1 10.

(** [[(0, 0, 0), (0, 1, 0), (0, 2, 0), (0, 3, 0)]] *)
Definition column : ndarray :=
  [Row f0 f0 f0; Row f0 f1 f0; Row f0 (F64.of_Z 2) f0; Row f0 (F64.of_Z 3) f0].

End Ex.

(** A point set is index-ordered in [S] when its points are the points of
    [S] at strictly ascending positions. *)
Definition at_positions (S : ndarray) (idx : list nat) (D : ndarray) : Prop :=
  Forall2 (fun i p => nth_error S i = Some p) idx D.

Definition index_ordered (S D : ndarray) : Prop :=
  exists idx, StronglySorted lt idx /\ at_positions S idx D.

(** [l1] is a subsequence of [l2]. *)
Inductive subseq (A : Type) : list A -> list A -> Prop :=
| subseq_nil : subseq [] []
| subseq_skip : forall x l1 l2, subseq l1 l2 -> subseq l1 (x :: l2)
| subseq_keep : forall x l1 l2, subseq l1 l2 -> subseq (x :: l1) (x :: l2).

(** Whether an element of [all] with a smaller position equals the
    element of [y]. *)
Definition has_earlier (K : Type) (ne : K -> K -> bool)
    (all : list (nat * K)) (y : nat * K) : bool :=
  existsb (fun z => (fst z <? fst y) && negb (ne (snd y) (snd z))) all.

(** The indexed elements of [ar] that no earlier element equals, in
    sorted order. *)
Definition first_pairs (K : Type) (cmp : K -> K -> comparison)
    (ne : K -> K -> bool) (ar : list K) : list (nat * K) :=
  filter (fun y => negb (has_earlier ne (enumerate ar) y)) (sorted_pairs cmp ar).

(** The positions and keys [downsample] retains from [S]. *)
Definition retained (v : F64.float) (S : ndarray) : list (nat * row) :=
  first_pairs VOID_compare row_ne (keys v S).

(** ** The sort order of binary64 as an order on integer triples *)

(** Lexicographic comparison of pairs. *)
Definition lex (A B : Type) (ca : A -> A -> comparison)
    (cb : B -> B -> comparison) (x y : A * B) : comparison :=
  match ca (fst x) (fst y) with
  | Eq => cb (snd x) (snd y)
  | c => c
  end.

Definition cmp_rank : Z * Z * Z -> Z * Z * Z -> comparison :=
  lex (lex Z.compare Z.compare) Z.compare.

(** The place of a value in the sort order: negative infinity, the
    negative finite values, the zeros, the positive finite values,
    positive infinity, NaN. *)
Definition rank (x : F64.float) : Z * Z * Z :=
  match x with
  | S754_infinity true => (-2, 0, 0)
  | S754_finite true m e => (-1, - e, Zneg m)
  | S754_zero _ => (0, 0, 0)
  | S754_finite false m e => (1, e, Zpos m)
  | S754_infinity false => (2, 0, 0)
  | S754_nan => (3, 0, 0)
  end%Z.

Definition row_rank (r : row) : (Z * Z * Z) * (Z * Z * Z) * (Z * Z * Z) :=
  (rank (c0 r), rank (c1 r), rank (c2 r)).

(** A three-way comparison of a total preorder. *)
Record cmp_laws (A : Type) (c : A -> A -> comparison) : Prop := CmpLaws {
  laws_antisym : forall a b, c b a = CompOpp (c a b);
  laws_lt_trans : forall a b x, c a b = Lt -> c b x = Lt -> c a x = Lt;
  laws_eq_cong : forall a b x, c a b = Eq -> c a x = c b x
}.

(* ================================================================= *)
(** * Loading the points *)

(** What [np.loadtxt] returns for a text file of numbers: an array of
    at most two dimensions, axes of length one squeezed away (a single
    number gives shape [()], a single row or a single column shape
    [(n,)]); the values of a two-dimensional array are kept row by row. *)
Inductive loadtxt_array : Type :=
| Arr0 (x : F64.float)
| Arr1 (xs : list F64.float)
| Arr2 (nrows ncols : nat) (buffer : list F64.float).

(** [a.shape] *)
Definition shape (a : loadtxt_array) : list nat :=
  match a with
  | Arr0 _ => []
  | Arr1 xs => [length xs]
  | Arr2 n m _ => [n; m]
  end.

(** The buffer holds as many values as the shape says. *)
Definition well_shaped (a : loadtxt_array) : Prop :=
  match a with
  | Arr2 n m buffer => length buffer = n * m
  | _ => True
  end.

(** The rows of a row-major buffer of three columns. *)
Fixpoint rows3 (buffer : list F64.float) : ndarray :=
  match buffer with
  | a :: b :: c :: rest => Row a b c :: rows3 rest
  | _ => []
  end.

(** The rows of a loaded array that has three columns. *)
Definition as_points (a : loadtxt_array) : ndarray :=
  match a with
  | Arr2 _ _ buffer => rows3 buffer
  | _ => []
  end.

(** Why a load failed: [np.loadtxt] raised, [shape[1]] does not exist,
    or the assertion on the number of columns failed. *)
Inductive load_failure (E : Type) : Type :=
| LoadtxtRaised (e : E)
| ShapeIndexError
| ColumnsAssertionError.

Arguments ShapeIndexError {E}.
Arguments ColumnsAssertionError {E}.

(** The line [load_points] prints. *)
Inductive load_line (E : Type) : Type :=
| OkLoaded (n : nat) (path : String.string)
| ErrorLoading (f : load_failure E).

Section LoadPoints.

(** The exceptions [np.loadtxt] raises, and what it does for a path:
    this depends on the file system. *)
Variable E : Type.
Variable loadtxt : String.string -> E + loadtxt_array.

(** [load_points(self)]: the object after the call and the line that
    was printed.  Every exception of the [try] block is caught: the
    handler prints it and resets [points]. *)
Definition load_points (ld : PointCloudLoader) : PointCloudLoader * load_line E :=
  match loadtxt (filepath ld) with
  | inl e => (Loader (filepath ld) None, ErrorLoading (LoadtxtRaised e))
  | inr a =>
      match nth_error (shape a) 1 with
      | None => (Loader (filepath ld) None, ErrorLoading ShapeIndexError)
      | Some ncols =>
          if ncols =? 3 then
            (Loader (filepath ld) (Some (as_points a)),
             OkLoaded E (hd 0 (shape a)) (filepath ld))
          else
            (Loader (filepath ld) None, ErrorLoading ColumnsAssertionError)
      end
  end.

End LoadPoints.

(** [-x] *)
Definition fneg (x : F64.float) : F64.float := SFopp x.

(** Whether any coordinate of a row is a NaN. *)
Definition has_nan (r : row) : bool :=
  F64.is_nan (c0 r) || F64.is_nan (c1 r) || F64.is_nan (c2 r).

(** Whether all coordinates of a row are finite. *)
Definition finite_row (r : row) : bool :=
  is_finite (c0 r) && is_finite (c1 r) && is_finite (c2 r).

(** The state in which the loader holds [S] and [out] was printed. *)
Definition holding (path : String.string) (S : ndarray) (out : list line) : state :=
  State (Loader path (Some S)) out.

(* ================================================================= *)
(** * Facts about lists *)

Section ListFacts.

Variables A B : Type.

Lemma filter_perm_length (p : A -> bool) (l l' : list A) :
  Permutation l l' -> length (filter p l) = length (filter p l').
Proof.
  induction 1; simpl; try destruct (p x); try destruct (p y);
    simpl; congruence.
Qed.

Lemma filter_ext_in_eq (p q : A -> bool) (l : list A) :
  (forall x, In x l -> p x = q x) -> filter p l = filter q l.
Proof.
  induction l as [|a l IH]; simpl; intros H; [reflexivity|].
  rewrite (H a (or_introl eq_refl)), IH; auto.
Qed.

Lemma existsb_perm (p : A -> bool) (l l' : list A) :
  Permutation l l' -> existsb p l = existsb p l'.
Proof.
  induction 1; simpl; try congruence.
  destruct (p x), (p y); reflexivity.
Qed.

Lemma strongly_sorted_app_inv (R : A -> A -> Prop) (l1 l2 : list A) :
  StronglySorted R (l1 ++ l2) ->
  StronglySorted R l2 /\ (forall x, In x l1 -> forall y, In y l2 -> R x y).
Proof.
  induction l1 as [|a l1 IH]; simpl; intros H.
  - split; [assumption | intros x []].
  - inversion H as [|? ? Hs Hf]; subst.
    destruct (IH Hs) as [H2 Hx]. split; [assumption|].
    intros x [<-|Hin] y Hy.
    + rewrite Forall_forall in Hf. apply Hf, in_or_app; auto.
    + eauto.
Qed.

(** Filtering a pairwise-related list leaves a pairwise-related list,
    also for a relation that only holds between the kept elements. *)
Lemma strongly_sorted_filter (R R' : A -> A -> Prop) (p : A -> bool) (l : list A) :
  (forall x y, R x y -> p x = true -> p y = true -> R' x y) ->
  StronglySorted R l -> StronglySorted R' (filter p l).
Proof.
  intros HR. induction 1 as [|a l Hs IH Hf]; simpl; [constructor|].
  destruct (p a) eqn:Ha; [|assumption].
  constructor; [assumption|].
  rewrite Forall_forall in *. intros y Hy.
  apply filter_In in Hy. destruct Hy as [Hy Hpy]. auto.
Qed.

Lemma strongly_sorted_impl (R R' : A -> A -> Prop) (l : list A) :
  (forall x y, R x y -> R' x y) -> StronglySorted R l -> StronglySorted R' l.
Proof.
  intros HR. induction 1 as [|a l Hs IH Hf]; constructor; [assumption|].
  eapply Forall_impl; [|exact Hf]. auto.
Qed.

Lemma compress_all_true (l : list B) (xs : list A) :
  length xs = length l -> compress (map (fun _ => true) l) xs = xs.
Proof.
  revert xs. induction l as [|b l IH]; intros [|x xs]; simpl; try discriminate;
    try reflexivity.
  intros H. f_equal. apply IH. lia.
Qed.

Lemma strongly_sorted_map_inv (f : A -> B) (R : B -> B -> Prop) (l : list A) :
  StronglySorted R (map f l) -> StronglySorted (fun x y => R (f x) (f y)) l.
Proof.
  induction l as [|a l IH]; simpl; intros H; [constructor|].
  inversion H as [|? ? Hs Hf]; subst. constructor; [auto|].
  rewrite Forall_forall in *. intros y Hy. apply Hf, in_map. assumption.
Qed.

Lemma strongly_sorted_map (f : A -> B) (R : B -> B -> Prop) (l : list A) :
  StronglySorted (fun x y => R (f x) (f y)) l -> StronglySorted R (map f l).
Proof.
  induction 1 as [|a l Hs IH Hf]; simpl; constructor; [assumption|].
  rewrite Forall_forall in *. intros y Hy.
  apply in_map_iff in Hy. destruct Hy as [x [<- Hx]]. auto.
Qed.

Lemma nodup_map_filter (keep : A -> bool) (proj : A -> B) (xs : list A)
    (H : NoDup (map proj xs)) :
  NoDup (map proj (filter keep xs)).
Proof.
  induction xs as [|a xs IH]; simpl in *; [constructor|].
  inversion H as [|? ? Hn Hd]; subst.
  destruct (keep a); [|auto].
  simpl. constructor; [|auto].
  intros Hin. apply Hn.
  apply in_map_iff in Hin. destruct Hin as [x [Hx Hin]].
  apply filter_In in Hin. rewrite <- Hx. apply in_map. tauto.
Qed.

Lemma compress_map (f : A -> B) (mask : list bool) (l : list A) :
  compress mask (map f l) = map f (compress mask l).
Proof.
  revert l. induction mask as [|b m IH]; intros [|x l]; simpl; try reflexivity.
  destruct b; simpl; rewrite IH; reflexivity.
Qed.

Lemma compress_filter (p : A -> bool) (l : list A) :
  compress (map p l) l = filter p l.
Proof.
  induction l as [|x l IH]; simpl; [reflexivity|].
  rewrite IH. reflexivity.
Qed.

Lemma filter_subseq (p : A -> bool) (l : list A) : subseq (filter p l) l.
Proof.
  induction l as [|x l IH]; simpl; [constructor|].
  destruct (p x); constructor; assumption.
Qed.

(** The pairs of [combine (seq a (length l)) l]. *)
Lemma in_combine_seq (l : list A) (a i : nat) (x : A) :
  In (i, x) (combine (seq a (length l)) l) <->
  a <= i /\ nth_error l (i - a) = Some x.
Proof.
  revert a. induction l as [|y l IH]; intros a; simpl.
  - split; [intros [] | intros [_ H]].
    destruct (i - a); discriminate.
  - rewrite IH. split.
    + intros [H | [Hle H]].
      * inversion H; subst. rewrite Nat.sub_diag. auto.
      * split; [lia|].
        replace (i - a) with (S (i - S a)) by lia. assumption.
    + intros [Hle H]. destruct (i - a) as [|n] eqn:E.
      * left. inversion H; subst. f_equal. lia.
      * right. split; [lia|].
        replace (i - S a) with n by lia. assumption.
Qed.

Lemma map_fst_combine_seq (l : list A) (a : nat) :
  map fst (combine (seq a (length l)) l) = seq a (length l).
Proof.
  revert a. induction l as [|y l IH]; intros a; simpl; [reflexivity|].
  rewrite IH. reflexivity.
Qed.

Lemma map_snd_combine_seq (l : list A) (a : nat) :
  map snd (combine (seq a (length l)) l) = l.
Proof.
  revert a. induction l as [|y l IH]; intros a; simpl; [reflexivity|].
  rewrite IH. reflexivity.
Qed.

End ListFacts.

(* ================================================================= *)
(** * The stable sort and [unique1d] under a total preorder *)

Section UniqueFacts.

Variable K : Type.
Variable cmp : K -> K -> comparison.
Variable ne : K -> K -> bool.

(** [cmp] is a total preorder, and [!=] is the negation of an
    equality that refines its equivalence: elements that are equal
    compare equal, and elements that compare equal are equal unless
    they differ from themselves (as a NaN does). *)
Hypothesis cmp_antisym : forall a b, cmp b a = CompOpp (cmp a b).
Hypothesis cmp_le_trans :
  forall a b c, cmp a b <> Gt -> cmp b c <> Gt -> cmp a c <> Gt.
Hypothesis ne_cmp : forall a b, ne a b = false -> cmp a b = Eq.
Hypothesis cmp_ne : forall a b, cmp a b = Eq -> ne a a = false -> ne a b = false.
Hypothesis ne_refl_l : forall a b, ne a b = false -> ne a a = false.

Lemma before_le_key x y : (before cmp) x y -> (le_key cmp) x y.
Proof. unfold before, le_key. intros [H | [H _]]; rewrite H; discriminate. Qed.

Lemma cmp_eq_sym a b : cmp a b = Eq -> cmp b a = Eq.
Proof. intros H. rewrite cmp_antisym, H. reflexivity. Qed.

(** Between two elements that compare equal, everything compares
    equal. *)
Lemma cmp_squeeze a b c :
  cmp a b <> Gt -> cmp b c <> Gt -> cmp c a = Eq -> cmp c b = Eq.
Proof.
  intros Hab Hbc Hca.
  assert (Hcb : cmp c b <> Gt).
  { apply cmp_le_trans with a; [rewrite Hca; discriminate | assumption]. }
  rewrite (cmp_antisym b c) in Hcb |- *.
  destruct (cmp b c); simpl in *; congruence.
Qed.

Lemma insert_perm x l : Permutation (insert cmp x l) (x :: l).
Proof.
  induction l as [|y l IH]; simpl; [reflexivity|].
  destruct (cmp (snd x) (snd y)); try reflexivity.
  rewrite IH. apply perm_swap.
Qed.

Lemma stable_sort_perm l : Permutation (stable_sort cmp l) l.
Proof.
  induction l as [|x l IH]; simpl; [reflexivity|].
  rewrite insert_perm. constructor. assumption.
Qed.

Lemma insert_sorted x l :
  Forall (fun y => fst x < fst y) l ->
  StronglySorted (before cmp) l -> StronglySorted (before cmp) (insert cmp x l).
Proof.
  intros Hlt Hs. induction Hs as [|y l Hs IH Hf]; simpl.
  - repeat constructor.
  - inversion Hlt as [|? ? Hxy Hlt']; subst.
    assert (Hhead : cmp (snd x) (snd y) <> Gt ->
                    Forall ((before cmp) x) (y :: l)).
    { intros Hle. rewrite Forall_forall in *. intros z Hz.
      assert (Hxz : cmp (snd x) (snd z) <> Gt).
      { destruct Hz as [<-|Hz]; [assumption|].
        apply cmp_le_trans with (snd y); [assumption|].
        apply before_le_key; auto. }
      assert (Hiz : fst x < fst z).
      { destruct Hz as [<-|Hz]; auto. }
      unfold before. destruct (cmp (snd x) (snd z)); auto; congruence. }
    destruct (cmp (snd x) (snd y)) eqn:E.
    + constructor; [constructor; assumption | apply Hhead; discriminate].
    + constructor; [constructor; assumption | apply Hhead; discriminate].
    + constructor; [auto|].
      rewrite Forall_forall in *. intros z Hz.
      apply (Permutation_in _ (insert_perm x l)) in Hz.
      destruct Hz as [<-|Hz]; [|auto].
      left. rewrite cmp_antisym, E. reflexivity.
Qed.

Lemma stable_sort_sorted l :
  StronglySorted (fun x y => fst x < fst y) l ->
  StronglySorted (before cmp) (stable_sort cmp l).
Proof.
  induction 1 as [|x l Hs IH Hf]; simpl; [constructor|].
  apply insert_sorted; [|assumption].
  rewrite Forall_forall in *. intros y Hy. apply Hf.
  apply (Permutation_in _ (stable_sort_perm l)). assumption.
Qed.

(** A list that is already in order is left as it is. *)
Lemma stable_sort_id l :
  StronglySorted (le_key cmp) l -> stable_sort cmp l = l.
Proof.
  induction 1 as [|x l Hs IH Hf]; simpl; [reflexivity|].
  rewrite IH. destruct l as [|y l]; simpl; [reflexivity|].
  inversion Hf as [|? ? Hxy _]; subst. unfold le_key in Hxy.
  destruct (cmp (snd x) (snd y)); congruence.
Qed.

Lemma enumerate_from_sorted (ar : list K) a :
  StronglySorted (fun x y : nat * K => fst x < fst y)
                 (combine (seq a (length ar)) ar).
Proof.
  revert a. induction ar as [|k ar IH]; intros a; simpl; constructor.
  - apply IH.
  - rewrite Forall_forall. intros [i x] Hin.
    apply in_combine_seq in Hin. simpl. lia.
Qed.

Lemma in_enumerate (ar : list K) i k :
  In (i, k) (enumerate ar) <-> nth_error ar i = Some k.
Proof.
  unfold enumerate. rewrite in_combine_seq, Nat.sub_0_r.
  split; [tauto | intros H; split; [lia | assumption]].
Qed.

Lemma sorted_pairs_perm ar : Permutation ((sorted_pairs cmp) ar) (enumerate ar).
Proof. apply stable_sort_perm. Qed.

Lemma sorted_pairs_sorted ar : StronglySorted (before cmp) ((sorted_pairs cmp) ar).
Proof. apply stable_sort_sorted, enumerate_from_sorted. Qed.

(** ** The flags select the first occurrences *)

Lemma has_earlier_true all y :
  has_earlier ne all y = true <->
  exists z, In z all /\ fst z < fst y /\ ne (snd y) (snd z) = false.
Proof.
  unfold has_earlier. rewrite existsb_exists.
  split; intros [z [Hin H]]; exists z; split; auto.
  - apply andb_true_iff in H. destruct H as [H1 H2].
    apply Nat.ltb_lt in H1. apply negb_true_iff in H2. auto.
  - destruct H as [H1 H2]. apply andb_true_iff.
    split; [apply Nat.ltb_lt | apply negb_true_iff]; assumption.
Qed.

Lemma flag_iff_first pre prev y l :
  StronglySorted (before cmp) (pre ++ prev :: y :: l) ->
  ne (snd y) (snd prev) = negb (has_earlier ne (pre ++ prev :: y :: l) y).
Proof.
  intros Hs.
  destruct (strongly_sorted_app_inv _ _ Hs) as [Hs2 Hpre].
  inversion Hs2 as [|? ? Hs3 Hprev]; subst.
  inversion Hs3 as [|? ? _ Hy]; subst.
  rewrite Forall_forall in Hprev, Hy.
  assert (Hpy : (before cmp) prev y) by (apply Hprev; left; reflexivity).
  destruct (ne (snd y) (snd prev)) eqn:E; symmetry.
  - apply negb_true_iff.
    destruct (has_earlier ne (pre ++ prev :: y :: l) y) eqn:HE; [|reflexivity].
    exfalso. apply has_earlier_true in HE.
    destruct HE as [z [Hin [Hlt Hne]]].
    assert (Hyz : cmp (snd y) (snd z) = Eq) by auto.
    apply in_app_or in Hin. destruct Hin as [Hin | [<- | [<- | Hin]]].
    + assert (Hzp : (before cmp) z prev) by (apply Hpre; simpl; auto).
      assert (Hyp : cmp (snd y) (snd prev) = Eq).
      { apply cmp_squeeze with (snd z).
        - apply before_le_key; assumption.
        - apply before_le_key; assumption.
        - assumption. }
      apply cmp_ne in Hyp; [congruence|]. eapply ne_refl_l; eassumption.
    + congruence.
    + lia.
    + destruct (Hy _ Hin) as [H | [_ H]]; [congruence | lia].
  - apply negb_false_iff, has_earlier_true.
    exists prev. split; [apply in_or_app; simpl; auto|].
    split; [|assumption].
    apply ne_cmp, cmp_eq_sym in E.
    destruct Hpy as [H | [_ H]]; [congruence | assumption].
Qed.

Lemma compress_flags_from pre prev l :
  StronglySorted (before cmp) (pre ++ prev :: l) ->
  compress (adjacent_ne ne (snd prev) (map snd l)) l
  = filter (fun y => negb (has_earlier ne (pre ++ prev :: l) y)) l.
Proof.
  revert pre prev. induction l as [|y l IH]; intros pre prev Hs; simpl;
    [reflexivity|].
  rewrite <- (flag_iff_first pre prev y l Hs).
  assert (Hs' : StronglySorted (before cmp) ((pre ++ [prev]) ++ y :: l)).
  { rewrite <- app_assoc. exact Hs. }
  specialize (IH (pre ++ [prev]) y Hs').
  rewrite <- app_assoc in IH. simpl in IH.
  rewrite IH. reflexivity.
Qed.

Lemma head_is_first x l :
  StronglySorted (before cmp) (x :: l) -> has_earlier ne (x :: l) x = false.
Proof.
  intros Hs. destruct (has_earlier ne (x :: l) x) eqn:HE; [|reflexivity].
  exfalso. apply has_earlier_true in HE.
  destruct HE as [z [[<- | Hin] [Hlt Hne]]]; [lia|].
  inversion Hs as [|? ? _ Hf]; subst. rewrite Forall_forall in Hf.
  apply ne_cmp in Hne.
  destruct (Hf _ Hin) as [H | [_ H]]; [congruence | lia].
Qed.

Lemma compress_flags s :
  StronglySorted (before cmp) s ->
  compress (first_flags ne (map snd s)) s
  = filter (fun y => negb (has_earlier ne s y)) s.
Proof.
  destruct s as [|x l]; intros Hs; [reflexivity|].
  cbn [map first_flags compress filter].
  rewrite (head_is_first Hs). cbn [negb].
  f_equal. exact (compress_flags_from [] x l Hs).
Qed.

(** ** What [unique1d] returns *)

Lemma unique1d_first_pairs ar :
  unique1d cmp ne ar
  = (map snd (first_pairs cmp ne ar), map fst (first_pairs cmp ne ar)).
Proof.
  unfold unique1d, first_pairs.
  rewrite !compress_map, (compress_flags (sorted_pairs_sorted ar)).
  rewrite (filter_ext_in_eq
             (fun y => negb (has_earlier ne (sorted_pairs cmp ar) y))
             (fun y => negb (has_earlier ne (enumerate ar) y))); [reflexivity|].
  intros y _. unfold has_earlier.
  rewrite (existsb_perm _ (sorted_pairs_perm ar)). reflexivity.
Qed.

Lemma in_first_pairs ar i k :
  In (i, k) (first_pairs cmp ne ar) <->
  nth_error ar i = Some k /\
  (forall j k', j < i -> nth_error ar j = Some k' -> ne k k' = true).
Proof.
  unfold first_pairs. rewrite filter_In, negb_true_iff.
  rewrite <- in_enumerate.
  split; intros [Hin H]; split.
  - apply (Permutation_in _ (sorted_pairs_perm ar)); assumption.
  - intros j k' Hlt Hj. apply not_false_iff_true. intros Hne.
    assert (HE : has_earlier ne (enumerate ar) (i, k) = true).
    { apply has_earlier_true. exists (j, k'). simpl.
      rewrite in_enumerate. auto. }
    congruence.
  - apply (Permutation_in _ (Permutation_sym (sorted_pairs_perm ar))); assumption.
  - apply not_true_iff_false. intros HE. apply has_earlier_true in HE.
    destruct HE as [[j k'] [Hj [Hlt Hne]]]. simpl in *.
    apply in_enumerate in Hj. rewrite (H j k' Hlt Hj) in Hne. discriminate.
Qed.

Lemma first_pairs_bound ar z :
  In z (first_pairs cmp ne ar) -> nth_error ar (fst z) = Some (snd z).
Proof. destruct z as [i k]. intros H. apply in_first_pairs in H. apply H. Qed.

Lemma first_pairs_nodup ar : NoDup (map fst (first_pairs cmp ne ar)).
Proof.
  unfold first_pairs. apply nodup_map_filter.
  apply (Permutation_NoDup
           (Permutation_map fst (Permutation_sym (sorted_pairs_perm ar)))).
  unfold enumerate. rewrite map_fst_combine_seq. apply seq_NoDup.
Qed.

Lemma first_pairs_length_le ar : length (first_pairs cmp ne ar) <= length ar.
Proof.
  unfold first_pairs.
  etransitivity; [apply filter_length_le|].
  rewrite (Permutation_length (sorted_pairs_perm ar)).
  unfold enumerate. rewrite length_combine, length_seq. lia.
Qed.

(** The kept elements are in sorted order and pairwise different. *)
Lemma first_pairs_sorted ar :
  StronglySorted (fun z w => le_key cmp z w /\ ne (snd w) (snd z) = true)
                 (first_pairs cmp ne ar).
Proof.
  unfold first_pairs.
  apply strongly_sorted_filter with (R := fun z w =>
    In z (enumerate ar) /\ before cmp z w).
  - intros z w [Hin Hb] _ Hw. split; [apply before_le_key; assumption|].
    apply not_false_iff_true. intros Hne.
    apply negb_true_iff in Hw.
    assert (HE : has_earlier ne (enumerate ar) w = true).
    { apply has_earlier_true. exists z. split; [assumption|].
      split; [|assumption].
      apply ne_cmp, cmp_eq_sym in Hne.
      destruct Hb as [H | [_ H]]; [congruence | assumption]. }
    congruence.
  - assert (Hin : forall z, In z (sorted_pairs cmp ar) -> In z (enumerate ar)).
    { intros z. apply Permutation_in, sorted_pairs_perm. }
    generalize (sorted_pairs_sorted ar). revert Hin.
    generalize (sorted_pairs cmp ar) as s.
    induction s as [|x s IH]; intros Hin Hs; [constructor|].
    inversion Hs as [|? ? Hs' Hf]; subst. constructor.
    + apply IH; [intros z Hz; apply Hin; right; assumption | assumption].
    + rewrite Forall_forall in *. intros y Hy. split; [|auto].
      apply Hin. left. reflexivity.
Qed.

(** ** Counting the distinct elements *)

Lemma has_earlier_prefix pre k t :
  has_earlier ne (enumerate (pre ++ k :: t)) (length pre, k)
  = existsb (fun s => negb (ne k s)) pre.
Proof.
  apply eq_iff_eq_true. rewrite has_earlier_true, existsb_exists. simpl.
  split.
  - intros [[j k'] [Hin [Hlt Hne]]]. simpl in *.
    apply in_enumerate in Hin. rewrite nth_error_app1 in Hin by assumption.
    exists k'. split; [eapply nth_error_In; eassumption|].
    rewrite Hne. reflexivity.
  - intros [k' [Hin Hne]]. apply In_nth_error in Hin. destruct Hin as [j Hj].
    assert (Hlt : j < length pre).
    { apply nth_error_Some. congruence. }
    exists (j, k'). simpl. rewrite in_enumerate, nth_error_app1 by assumption.
    apply negb_true_iff in Hne. auto.
Qed.

Lemma count_first_from pre l :
  length (filter (fun y => negb (has_earlier ne (enumerate (pre ++ l)) y))
                 (combine (seq (length pre) (length l)) l))
  = distinct_from ne pre l.
Proof.
  revert pre. induction l as [|k t IH]; intros pre; [reflexivity|].
  cbn [length seq combine filter distinct_from].
  rewrite has_earlier_prefix.
  specialize (IH (pre ++ [k])).
  rewrite <- app_assoc, length_app in IH. simpl in IH.
  rewrite Nat.add_1_r in IH.
  destruct (existsb (fun s => negb (ne k s)) pre); simpl; rewrite IH; reflexivity.
Qed.

Lemma first_pairs_length ar :
  length (first_pairs cmp ne ar) = num_distinct ne ar.
Proof.
  unfold first_pairs.
  rewrite (filter_perm_length _ (sorted_pairs_perm ar)).
  exact (count_first_from [] ar).
Qed.

(** ** [unique1d] on its own output *)

Lemma combine_seq_sorted (R : K -> K -> Prop) (l : list K) a :
  StronglySorted R l ->
  StronglySorted (fun z w : nat * K => R (snd z) (snd w))
                 (combine (seq a (length l)) l).
Proof.
  intros Hs. revert a. induction Hs as [|k l Hs IH Hf]; intros a; simpl;
    constructor; [apply IH|].
  rewrite Forall_forall in *. intros [i x] Hin.
  apply in_combine_seq in Hin. destruct Hin as [_ Hin].
  apply nth_error_In in Hin. simpl. auto.
Qed.

Lemma flags_all_true prev (l : list K) :
  StronglySorted (fun a b => ne b a = true) (prev :: l) ->
  adjacent_ne ne prev l = map (fun _ => true) l.
Proof.
  revert prev. induction l as [|a l IH]; intros prev Hs; [reflexivity|].
  inversion Hs as [|? ? Hs' Hf]; subst. inversion Hf; subst.
  simpl. f_equal; [assumption | apply IH; assumption].
Qed.

Lemma unique1d_sorted_distinct (l : list K) :
  StronglySorted (fun a b => cmp a b <> Gt /\ ne b a = true) l ->
  unique1d cmp ne l = (l, seq 0 (length l)).
Proof.
  intros Hs. unfold unique1d, sorted_pairs.
  rewrite stable_sort_id.
  - unfold enumerate. rewrite map_snd_combine_seq, map_fst_combine_seq.
    assert (Hf : first_flags ne l = map (fun _ => true) l).
    { destruct l as [|a l]; [reflexivity|]. simpl. f_equal.
      apply flags_all_true.
      eapply strongly_sorted_impl; [|exact Hs]. intros x y H; apply H. }
    rewrite Hf, !compress_all_true; [reflexivity | apply length_seq | reflexivity].
  - apply combine_seq_sorted with (R := fun a b => cmp a b <> Gt).
    eapply strongly_sorted_impl; [|exact Hs]. intros x y H; apply H.
Qed.

(** ** Every element has a kept representative *)

Hypothesis ne_trans :
  forall a b c, ne a b = false -> ne b c = false -> ne a c = false.

Lemma first_pairs_represent ar i k :
  nth_error ar i = Some k ->
  exists j k', In (j, k') (first_pairs cmp ne ar) /\ j <= i /\
               (j = i \/ ne k k' = false).
Proof.
  revert k. induction i as [i IH] using lt_wf_ind. intros k Hk.
  destruct (has_earlier ne (enumerate ar) (i, k)) eqn:HE.
  - apply has_earlier_true in HE.
    destruct HE as [[j kj] [Hin [Hlt Hne]]]. simpl in *.
    apply in_enumerate in Hin.
    destruct (IH j Hlt kj Hin) as [j' [k' [Hf [Hle Hor]]]].
    exists j', k'. split; [assumption|]. split; [lia|]. right.
    destruct Hor as [-> | Hne'].
    + apply first_pairs_bound in Hf. simpl in Hf. congruence.
    + eapply ne_trans; eassumption.
  - exists i, k. split; [|auto].
    unfold first_pairs. apply filter_In. rewrite HE. split; [|reflexivity].
    apply (Permutation_in _ (Permutation_sym (sorted_pairs_perm ar))).
    apply in_enumerate. assumption.
Qed.

End UniqueFacts.

(* ================================================================= *)
(** * Comparisons that are total preorders *)

Section CmpLaws.

Variables A B : Type.

Lemma laws_eq_cong_r (c : A -> A -> comparison) (L : cmp_laws c) a b x :
  c a b = Eq -> c x a = c x b.
Proof.
  intros H. rewrite (laws_antisym L a x), (laws_antisym L b x).
  rewrite (laws_eq_cong L _ _ x H). reflexivity.
Qed.

Lemma laws_le_trans (c : A -> A -> comparison) (L : cmp_laws c) a b x :
  c a b <> Gt -> c b x <> Gt -> c a x <> Gt.
Proof.
  intros Hab Hbx.
  destruct (c a b) eqn:E1; [| |congruence].
  - rewrite (laws_eq_cong L _ _ x E1). assumption.
  - destruct (c b x) eqn:E2; [| |congruence].
    + rewrite <- (laws_eq_cong_r L b x a E2), E1. discriminate.
    + rewrite (laws_lt_trans L _ _ _ E1 E2). discriminate.
Qed.

Lemma lex_laws (ca : A -> A -> comparison) (cb : B -> B -> comparison) :
  cmp_laws ca -> cmp_laws cb -> cmp_laws (lex ca cb).
Proof.
  intros La Lb. split; unfold lex.
  - intros [a1 b1] [a2 b2]; simpl.
    rewrite (laws_antisym La a1 a2). destruct (ca a1 a2); simpl; auto.
    apply (laws_antisym Lb).
  - intros [a1 b1] [a2 b2] [a3 b3]; simpl.
    destruct (ca a1 a2) eqn:E1; try discriminate.
    + rewrite (laws_eq_cong La _ _ a3 E1).
      destruct (ca a2 a3); try discriminate; auto.
      apply (laws_lt_trans Lb).
    + intros _. destruct (ca a2 a3) eqn:E2; try discriminate.
      * rewrite <- (laws_eq_cong_r La a2 a3 a1 E2), E1. reflexivity.
      * rewrite (laws_lt_trans La _ _ _ E1 E2). reflexivity.
  - intros [a1 b1] [a2 b2] [a3 b3]; simpl.
    destruct (ca a1 a2) eqn:E1; try discriminate.
    rewrite (laws_eq_cong La _ _ a3 E1).
    intros E2. rewrite (laws_eq_cong Lb _ _ b3 E2). reflexivity.
Qed.

Lemma pull_laws (f : A -> B) (cb : B -> B -> comparison) :
  cmp_laws cb -> cmp_laws (fun x y => cb (f x) (f y)).
Proof.
  intros L. split; intros.
  - apply (laws_antisym L).
  - eapply (laws_lt_trans L); eassumption.
  - apply (laws_eq_cong L). assumption.
Qed.

Lemma lex_eq (ca : A -> A -> comparison) (cb : B -> B -> comparison) x y :
  lex ca cb x y = Eq <-> ca (fst x) (fst y) = Eq /\ cb (snd x) (snd y) = Eq.
Proof.
  unfold lex. destruct (ca (fst x) (fst y)); intuition discriminate.
Qed.

End CmpLaws.

Lemma Z_compare_laws : cmp_laws Z.compare.
Proof.
  split.
  - intros a b. apply Z.compare_antisym.
  - intros a b x. rewrite !Z.compare_lt_iff. lia.
  - intros a b x H. apply Z.compare_eq in H. subst. reflexivity.
Qed.

Lemma cmp_rank_laws : cmp_laws cmp_rank.
Proof.
  unfold cmp_rank. apply lex_laws; [apply lex_laws|]; apply Z_compare_laws.
Qed.

Lemma cmp_rank_eq r s : cmp_rank r s = Eq <-> r = s.
Proof.
  unfold cmp_rank. rewrite !lex_eq, !Z.compare_eq_iff.
  destruct r as [[? ?] ?], s as [[? ?] ?]; simpl.
  split; [intros [[-> ->] ->]; reflexivity | intros H; inversion H; auto].
Qed.

(* ================================================================= *)
(** * The order and the equality of binary64 *)

Lemma SFcompare_rank (a b : F64.float) :
  SFcompare a b
  = if F64.is_nan a || F64.is_nan b then None
    else Some (cmp_rank (rank a) (rank b)).
Proof.
  destruct a as [[]|[]| |[] m1 e1], b as [[]|[]| |[] m2 e2];
    try reflexivity.
  cbn -[Z.opp]. unfold cmp_rank, lex. cbn -[Z.opp Z.compare].
  change (-1 ?= -1)%Z with Eq. cbn iota.
  rewrite Z.compare_opp, (Z.compare_antisym e1 e2).
  destruct (e1 ?= e2)%Z; reflexivity.
Qed.

Lemma eqb_rank (a b : F64.float) :
  F64.eqb a b = true <-> rank a = rank b /\ F64.is_nan a = false.
Proof.
  unfold F64.eqb, SFeqb. rewrite SFcompare_rank.
  destruct (F64.is_nan a) eqn:Ea; simpl.
  - split; [discriminate | intros [_ H]; discriminate].
  - destruct (F64.is_nan b) eqn:Eb.
    + split; [discriminate|]. intros [H _].
      destruct a as [[]|[]| |[] ? ?], b; try discriminate.
    + rewrite <- cmp_rank_eq.
      destruct (cmp_rank (rank a) (rank b)); intuition discriminate.
Qed.

Lemma eqb_self (a : F64.float) : F64.eqb a a = negb (F64.is_nan a).
Proof.
  apply eq_iff_eq_true. rewrite eqb_rank, negb_true_iff. tauto.
Qed.

Lemma DOUBLE_compare_rank (a b : F64.float) :
  DOUBLE_compare a b = cmp_rank (rank a) (rank b).
Proof.
  unfold DOUBLE_compare, DOUBLE_lt, F64.neqb, F64.ltb, SFltb.
  rewrite !eqb_self, !SFcompare_rank, !negb_involutive.
  rewrite (laws_antisym cmp_rank_laws (rank a) (rank b)).
  destruct (F64.is_nan a) eqn:Ea, (F64.is_nan b) eqn:Eb; simpl.
  - destruct a, b; try discriminate. reflexivity.
  - destruct a; try discriminate.
    destruct b as [[]|[]| |[] ? ?]; try discriminate; reflexivity.
  - destruct b; try discriminate.
    destruct a as [[]|[]| |[] ? ?]; try discriminate; reflexivity.
  - destruct (cmp_rank (rank a) (rank b)); reflexivity.
Qed.

Lemma VOID_compare_rank (r s : row) :
  VOID_compare r s
  = lex (lex cmp_rank cmp_rank) cmp_rank (row_rank r) (row_rank s).
Proof.
  unfold VOID_compare, lex, row_rank. simpl.
  rewrite !DOUBLE_compare_rank.
  destruct (cmp_rank (rank (c0 r)) (rank (c0 s))),
    (cmp_rank (rank (c1 r)) (rank (c1 s))); reflexivity.
Qed.

Lemma VOID_compare_laws : cmp_laws VOID_compare.
Proof.
  assert (L : cmp_laws (fun r s =>
            lex (lex cmp_rank cmp_rank) cmp_rank (row_rank r) (row_rank s))).
  { apply pull_laws.
    apply lex_laws; [apply lex_laws|]; apply cmp_rank_laws. }
  split; intros; rewrite !VOID_compare_rank in *.
  - apply (laws_antisym L).
  - eapply (laws_lt_trans L); eassumption.
  - apply (laws_eq_cong L). assumption.
Qed.

Lemma VOID_compare_eq (r s : row) :
  VOID_compare r s = Eq <-> row_rank r = row_rank s.
Proof.
  rewrite VOID_compare_rank, !lex_eq, !cmp_rank_eq. unfold row_rank. simpl.
  split; [intros [[-> ->] ->]; reflexivity | intros H; inversion H; auto].
Qed.

Lemma row_ne_false (r s : row) :
  row_ne r s = false <->
  F64.eqb (c0 r) (c0 s) = true /\ F64.eqb (c1 r) (c1 s) = true /\
  F64.eqb (c2 r) (c2 s) = true.
Proof.
  unfold row_ne, F64.neqb. fold (F64.eqb (c0 r) (c0 s)).
  fold (F64.eqb (c1 r) (c1 s)). fold (F64.eqb (c2 r) (c2 s)).
  destruct (F64.eqb (c0 r) (c0 s)), (F64.eqb (c1 r) (c1 s)),
    (F64.eqb (c2 r) (c2 s)); simpl; intuition discriminate.
Qed.

Lemma row_ne_eq (r s : row) : row_ne r s = negb (row_eq r s).
Proof.
  unfold row_ne, row_eq, F64.neqb. fold (F64.eqb (c0 r) (c0 s)).
  fold (F64.eqb (c1 r) (c1 s)). fold (F64.eqb (c2 r) (c2 s)).
  destruct (F64.eqb (c0 r) (c0 s)), (F64.eqb (c1 r) (c1 s)),
    (F64.eqb (c2 r) (c2 s)); reflexivity.
Qed.

Lemma row_ne_cmp (r s : row) : row_ne r s = false -> VOID_compare r s = Eq.
Proof.
  rewrite row_ne_false, !eqb_rank, VOID_compare_eq. unfold row_rank.
  intros [[-> _] [[-> _] [-> _]]]. reflexivity.
Qed.

Lemma row_cmp_ne (r s : row) :
  VOID_compare r s = Eq -> row_ne r r = false -> row_ne r s = false.
Proof.
  rewrite !row_ne_false, !eqb_rank, VOID_compare_eq. unfold row_rank.
  intros H. inversion H. tauto.
Qed.

Lemma row_ne_refl_l (r s : row) : row_ne r s = false -> row_ne r r = false.
Proof. rewrite !row_ne_false, !eqb_rank. tauto. Qed.

Lemma row_ne_sym (r s : row) : row_ne r s = row_ne s r.
Proof.
  apply eq_iff_eq_true. rewrite <- !not_false_iff_true, !row_ne_false, !eqb_rank.
  assert (N : forall a b : F64.float, rank a = rank b ->
              F64.is_nan a = F64.is_nan b).
  { intros a b H. destruct a as [[]|[]| |[] ? ?], b as [[]|[]| |[] ? ?];
      try reflexivity; discriminate. }
  split; intros H [[E0 N0] [[E1 N1] [E2 N2]]]; apply H;
    rewrite ?(N _ _ E0), ?(N _ _ E1), ?(N _ _ E2) in *; auto 10.
Qed.

Lemma row_ne_trans (r s t : row) :
  row_ne r s = false -> row_ne s t = false -> row_ne r t = false.
Proof.
  rewrite !row_ne_false, !eqb_rank.
  intros [[-> ?] [[-> ?] [-> ?]]] [[-> _] [[-> _] [-> _]]]. auto.
Qed.

Lemma geb_leb (a b : F64.float) : F64.geb a b = F64.leb b a.
Proof.
  unfold F64.geb, F64.leb, SFleb. rewrite !SFcompare_rank.
  rewrite (laws_antisym cmp_rank_laws (rank a) (rank b)), (orb_comm (F64.is_nan b)).
  destruct (F64.is_nan a || F64.is_nan b); [reflexivity|].
  destruct (cmp_rank (rank a) (rank b)); reflexivity.
Qed.

(* ================================================================= *)
(** * Integer and boolean indexing *)

Lemma take_pairs (f : row -> row) (S : ndarray) (l : list (nat * row)) :
  Forall (fun z => exists p, nth_error S (fst z) = Some p /\ f p = snd z) l ->
  exists D, take S (map fst l) = Return D /\
            at_positions S (map fst l) D /\ map f D = map snd l.
Proof.
  induction 1 as [|z l [p [Hp Hf]] _ [D [HD [Hat Hm]]]]; simpl.
  - exists []. repeat split. constructor.
  - exists (p :: D). rewrite Hp, HD. repeat split.
    + constructor; assumption.
    + simpl. congruence.
Qed.

Lemma take_seq (pre l : ndarray) :
  take (pre ++ l) (seq (length pre) (length l)) = Return l.
Proof.
  revert pre. induction l as [|r l IH]; intros pre; [reflexivity|].
  cbn [length seq take].
  rewrite nth_error_app2, Nat.sub_diag by lia. simpl.
  specialize (IH (pre ++ [r])).
  rewrite <- app_assoc, length_app, Nat.add_1_r in IH. simpl in IH.
  rewrite IH. reflexivity.
Qed.

Lemma at_positions_in (S D : ndarray) idx p :
  at_positions S idx D -> In p D -> exists i, In i idx /\ nth_error S i = Some p.
Proof.
  induction 1 as [|i q idx D Hi _ IH]; simpl; [intros []|].
  intros [<- | Hin].
  - exists i. auto.
  - destruct (IH Hin) as [j [Hj Hn]]. exists j. auto.
Qed.

Lemma at_positions_length (S D : ndarray) idx :
  at_positions S idx D -> length D = length idx.
Proof. induction 1; simpl; congruence. Qed.

(* ================================================================= *)
(** * What [downsample] computes *)

Lemma rounded_keys (S : ndarray) (v : F64.float) :
  Np.round (Np.true_divide S v) = keys v S.
Proof. unfold Np.round, Np.true_divide, keys. rewrite map_map. reflexivity. Qed.

(** The hypotheses of the section on sorting, for rows. *)
Ltac row_order :=
  first [ exact (laws_antisym VOID_compare_laws)
        | exact (laws_le_trans VOID_compare_laws)
        | exact row_ne_cmp
        | exact row_cmp_ne
        | exact row_ne_refl_l
        | exact row_ne_trans ].

Lemma unique_indices_retained (S : ndarray) (v : F64.float) :
  snd (Np.unique_axis0 (keys v S)) = map fst (retained v S).
Proof.
  unfold Np.unique_axis0, retained.
  rewrite unique1d_first_pairs by row_order. reflexivity.
Qed.

Lemma in_retained (S : ndarray) (v : F64.float) i k :
  In (i, k) (retained v S) <->
  (exists p, nth_error S i = Some p /\ voxel_key v p = k) /\
  (forall j q, j < i -> nth_error S j = Some q ->
               row_ne k (voxel_key v q) = true).
Proof.
  unfold retained.
  rewrite in_first_pairs by row_order.
  unfold keys. split; intros [H1 H2]; split.
  - rewrite nth_error_map in H1. destruct (nth_error S i) as [p|]; [|discriminate].
    exists p. split; [reflexivity | simpl in H1; congruence].
  - intros j q Hlt Hq. apply (H2 j); [assumption|].
    rewrite nth_error_map, Hq. reflexivity.
  - destruct H1 as [p [Hp <-]]. rewrite nth_error_map, Hp. reflexivity.
  - intros j k' Hlt Hj. rewrite nth_error_map in Hj.
    destruct (nth_error S j) as [q|] eqn:Hq; [|discriminate].
    simpl in Hj. inversion Hj; subst. eauto.
Qed.

(** The call returns; the object is unchanged and one line is printed. *)
Lemma downsample_run (st : state) (v : F64.float) (S : ndarray) :
  points (self st) = Some S ->
  exists D,
    downsample v st
    = (Return (Some D),
       State (self st) (stdout st ++ [InfoDownsampled (length D) v])) /\
    at_positions S (map fst (retained v S)) D /\
    keys v D = map snd (retained v S).
Proof.
  intros HS.
  destruct (@take_pairs (voxel_key v) S (retained v S)) as [D [HD [Hat Hk]]].
  { rewrite Forall_forall. intros [i k] Hin. apply in_retained in Hin.
    exact (proj1 Hin). }
  exists D. split; [|split; assumption].
  unfold downsample, bind, get_points, lift, print, ret. rewrite HS.
  rewrite rounded_keys, unique_indices_retained, HD. reflexivity.
Qed.

Lemma downsample_of_run (S : ndarray) (v : F64.float) :
  exists D,
    downsample_of S v = Return (Some D) /\
    at_positions S (map fst (retained v S)) D /\
    keys v D = map snd (retained v S).
Proof.
  destruct (@downsample_run (loaded S) v S eq_refl) as [D [H1 H2]].
  exists D. split; [|assumption].
  unfold downsample_of. rewrite H1. reflexivity.
Qed.

(* ================================================================= *)
(** * Properties of [downsample] *)

(** C1, as amended: for every point set [S] and every voxel size [v],
    [downsample] returns its points in non-descending lexicographic
    order of their voxel keys (first coordinate first, NaN last), the
    order in which [np.unique] sorts the rounded rows; this is in general
    not the order of the original positions. *)
Theorem downsample_sorted_by_key (S : ndarray) (v : F64.float) :
  exists D,
    downsample_of S v = Return (Some D) /\
    StronglySorted
      (fun p q => VOID_compare (voxel_key v p) (voxel_key v q) <> Gt) D.
Proof.
  destruct (downsample_of_run S v) as [D [HD [_ Hk]]].
  exists D. split; [assumption|].
  apply strongly_sorted_map_inv with (R := fun a b => VOID_compare a b <> Gt).
  fold (keys v D). rewrite Hk. apply strongly_sorted_map.
  eapply strongly_sorted_impl; [|apply first_pairs_sorted; row_order].
  intros x y H. apply H.
Qed.

(** C1 fails as stated: on [[(1, 0, 0), (0, 0, 0)]] with voxel size 1
    the result is [[(0, 0, 0), (1, 0, 0)]], the point of position 1
    before the point of position 0. *)
Lemma downsample_not_index_ordered :
  Ex.descending <> [] /\ F64.ltb F64.zero Ex.f1 = true /\
  downsample_of Ex.descending Ex.f1
  = Return (Some [Row Ex.f0 Ex.f0 Ex.f0; Row Ex.f1 Ex.f0 Ex.f0]) /\
  ~ index_ordered Ex.descending [Row Ex.f0 Ex.f0 Ex.f0; Row Ex.f1 Ex.f0 Ex.f0].
Proof.
  split; [discriminate|]. split; [reflexivity|]. split; [reflexivity|].
  intros [idx [Hs Hat]]. unfold at_positions in Hat.
  inversion Hat as [|i p idx' D' Hi Hat' E1 E2]; subst.
  inversion Hat' as [|j q idx'' D'' Hj _ E1 E2]; subst.
  inversion Hs as [|? ? _ Hf]; subst. inversion Hf as [|? ? Hij _]; subst.
  destruct i as [|[|i]]; [discriminate Hi | | destruct i; discriminate Hi].
  destruct j as [|j]; [lia|].
  destruct j as [|j]; [discriminate Hj | destruct j; discriminate Hj].
Qed.

Lemma same_key_ne (v : F64.float) (p q : row) :
  same_key v p q = negb (row_ne (voxel_key v p) (voxel_key v q)).
Proof. unfold same_key. rewrite row_ne_eq, negb_involutive. reflexivity. Qed.

Lemma same_key_sym (v : F64.float) (p q : row) : same_key v p q = same_key v q p.
Proof. rewrite !same_key_ne, row_ne_sym. reflexivity. Qed.

Lemma in_retained_idx (S : ndarray) (v : F64.float) (i : nat) :
  In i (map fst (retained v S)) <->
  exists p, nth_error S i = Some p /\
            forall j q, j < i -> nth_error S j = Some q -> same_key v p q = false.
Proof.
  rewrite in_map_iff. split.
  - intros [[i' k] [<- Hin]]. apply in_retained in Hin.
    destruct Hin as [[p [Hp <-]] H]. exists p. split; [assumption|].
    intros j q Hlt Hq. rewrite same_key_ne, (H j q Hlt Hq). reflexivity.
  - intros [p [Hp H]]. exists (i, voxel_key v p). split; [reflexivity|].
    apply in_retained. split; [eauto|].
    intros j q Hlt Hq. specialize (H j q Hlt Hq).
    rewrite same_key_ne in H. apply negb_false_iff in H. assumption.
Qed.

(** C3: for every point set [S] and voxel size [v], [downsample] returns
    the points of [S] at the positions that are the first of their voxel
    key: a position is retained exactly when no earlier point has the
    same key, so each key has a single representative, and for every
    point [q] with a key the representative of that key is retained and
    has the smallest position among the points with the key of [q].  On
    [[(0.4, 0, 0), (0.1, 0, 0)]] with voxel size 1.0 the result is
    [[(0.4, 0, 0)]]. *)
Theorem downsample_keeps_first_of_each_key :
  (forall (S : ndarray) (v : F64.float),
    exists D idx,
      downsample_of S v = Return (Some D) /\
      at_positions S idx D /\ NoDup idx /\
      (forall i, In i idx <->
         exists p, nth_error S i = Some p /\
           forall j q, j < i -> nth_error S j = Some q -> same_key v p q = false) /\
      (forall i i' p p', In i idx -> In i' idx ->
         nth_error S i = Some p -> nth_error S i' = Some p' ->
         same_key v p p' = true -> i = i') /\
      (forall j q, nth_error S j = Some q -> same_key v q q = true ->
         exists i p, In i idx /\ nth_error S i = Some p /\
           same_key v p q = true /\
           forall j' q', nth_error S j' = Some q' -> same_key v q' q = true ->
                         i <= j')) /\
  downsample_of Ex.tie (F64.of_Z 1) = Return (Some [Row (F64.dec 4 1) Ex.f0 Ex.f0]).
Proof.
  split; [|reflexivity].
  intros S v. destruct (downsample_of_run S v) as [D [HD [Hat _]]].
  exists D, (map fst (retained v S)).
  split; [assumption|]. split; [assumption|].
  split; [apply first_pairs_nodup; row_order|].
  split; [apply in_retained_idx|].
  assert (Hfirst : forall i p j q,
            In i (map fst (retained v S)) -> nth_error S i = Some p ->
            nth_error S j = Some q -> same_key v q p = true -> i <= j).
  { intros i p j q Hi Hp Hq Hsame.
    apply in_retained_idx in Hi. destruct Hi as [p0 [Hp0 H]].
    assert (p0 = p) by congruence. subst p0.
    destruct (Nat.le_gt_cases i j) as [Hle|Hlt]; [assumption|].
    specialize (H j q Hlt Hq). rewrite same_key_sym in H. congruence. }
  split.
  - intros i i' p p' Hi Hi' Hp Hp' Hsame.
    assert (i' <= i) by (eapply (Hfirst i' p' i p); eassumption).
    rewrite same_key_sym in Hsame.
    assert (i <= i') by (eapply (Hfirst i p i' p'); eassumption).
    lia.
  - intros j q Hq Hqq.
    assert (Hk : nth_error (keys v S) j = Some (voxel_key v q)).
    { unfold keys. rewrite nth_error_map, Hq. reflexivity. }
    assert (Hrep : exists i k', In (i, k') (retained v S) /\ i <= j /\
                     (i = j \/ row_ne (voxel_key v q) k' = false)).
    { unfold retained. apply first_pairs_represent; try row_order. exact Hk. }
    destruct Hrep as [i [k' [Hin [Hle Hor]]]].
    assert (Hi : In i (map fst (retained v S))).
    { apply in_map_iff. exists (i, k'). auto. }
    apply in_retained in Hin. destruct Hin as [[p [Hp Hpk]] Hmin]. subst k'.
    assert (Hsame : same_key v p q = true).
    { rewrite same_key_sym, same_key_ne. apply negb_true_iff.
      destruct Hor as [-> | H]; [|assumption].
      assert (p = q) by congruence. subst p.
      rewrite same_key_ne in Hqq. apply negb_true_iff in Hqq. assumption. }
    exists i, p. repeat (split; [assumption|]).
    intros j' q' Hq' Hsame'.
    apply (Hfirst i p j' q' Hi Hp Hq').
    rewrite !same_key_ne, negb_true_iff in *.
    eapply row_ne_trans; [eassumption|]. rewrite row_ne_sym. assumption.
Qed.

(** C4: for every point set [S] and voxel size [v], [downsample] returns
    as many points as [S] has distinct voxel keys, hence at most as many
    as [S] has points; the result for the empty point set is empty. *)
Theorem downsample_length (S : ndarray) (v : F64.float) :
  (exists D,
     downsample_of S v = Return (Some D) /\
     length D = num_distinct row_ne (keys v S) /\
     length D <= length S) /\
  downsample_of [] v = Return (Some []).
Proof.
  split; [|reflexivity].
  destruct (downsample_of_run S v) as [D [HD [Hat _]]].
  exists D. split; [assumption|].
  apply at_positions_length in Hat. rewrite length_map in Hat.
  unfold retained in Hat. split.
  - rewrite Hat. apply first_pairs_length; row_order.
  - rewrite Hat. etransitivity; [apply first_pairs_length_le|].
    unfold keys. rewrite length_map. constructor.
Qed.

(** C5: for every point set [S] and voxel size [v], every point that
    [downsample] returns is a point of [S], with its three coordinates
    unchanged. *)
Theorem downsample_members (S : ndarray) (v : F64.float) :
  exists D,
    downsample_of S v = Return (Some D) /\
    forall p, In p D -> In p S.
Proof.
  destruct (downsample_of_run S v) as [D [HD [Hat _]]].
  exists D. split; [assumption|].
  intros p Hp.
  destruct (@at_positions_in S D (map fst (retained v S)) p Hat Hp) as [i [_ Hi]].
  eapply nth_error_In. eassumption.
Qed.

(** C6: for every state of the loader (points loaded or not) and every
    voxel size, valid or not, a call of [downsample] leaves the object,
    and so its points, as they were. *)
Theorem downsample_leaves_points (st : state) (v : F64.float) :
  self (snd (downsample v st)) = self st /\
  points (self (snd (downsample v st))) = points (self st).
Proof.
  assert (H : self (snd (downsample v st)) = self st).
  { destruct (points (self st)) as [S|] eqn:HS.
    - destruct (downsample_run st v HS) as [D [HD _]]. rewrite HD. reflexivity.
    - unfold downsample, bind, get_points, ret. rewrite HS. reflexivity. }
  split; [assumption | rewrite H; reflexivity].
Qed.

Lemma distinct_from_pairwise (seen l : list row) :
  (forall s k, In s seen -> In k l -> row_ne k s = true) ->
  pairwise_ne row_ne l = true ->
  distinct_from row_ne seen l = length l.
Proof.
  revert seen. induction l as [|k t IH]; intros seen Hseen Hp; [reflexivity|].
  simpl in Hp. apply andb_true_iff in Hp. destruct Hp as [Hk Ht].
  rewrite forallb_forall in Hk.
  cbn [distinct_from length].
  assert (E : existsb (fun s => negb (row_ne k s)) seen = false).
  { apply not_true_iff_false. intros H. apply existsb_exists in H.
    destruct H as [s [Hs Hne]].
    rewrite (Hseen s k Hs (or_introl eq_refl)) in Hne. discriminate. }
  rewrite E, IH; [reflexivity | | assumption].
  intros s k' Hs Hk'. apply in_app_or in Hs. destruct Hs as [Hs | [<- | []]].
  - apply Hseen; [assumption | right; assumption].
  - apply Hk. assumption.
Qed.

(** C7: for every point set [S] in which no two points share a voxel
    key at voxel size [v], [downsample] drops no point, and downsampling
    its result again returns the same points in the same order. *)
Theorem downsample_idempotent (S : ndarray) (v : F64.float) :
  pairwise_ne row_ne (keys v S) = true ->
  exists D,
    downsample_of S v = Return (Some D) /\
    length D = length S /\
    downsample_of D v = Return (Some D).
Proof.
  intros Hdistinct.
  destruct (downsample_of_run S v) as [D [HD [Hat Hk]]].
  exists D. split; [assumption|]. split.
  { rewrite (at_positions_length Hat), length_map. unfold retained.
    rewrite first_pairs_length by row_order. unfold num_distinct.
    rewrite distinct_from_pairwise; [|intros s k [] | assumption].
    unfold keys. apply length_map. }
  assert (Hu : Np.unique_axis0 (keys v D)
               = (keys v D, seq 0 (length (keys v D)))).
  { unfold Np.unique_axis0.
    apply unique1d_sorted_distinct; try row_order.
    rewrite Hk.
    apply strongly_sorted_map
      with (R := fun a b => VOID_compare a b <> Gt /\ row_ne b a = true).
    apply first_pairs_sorted; row_order. }
  unfold downsample_of, downsample, bind, get_points, lift, print, ret, loaded.
  cbn [self points fst].
  rewrite rounded_keys, Hu. cbn [snd].
  pose proof (take_seq [] D) as Ht. simpl in Ht.
  unfold keys at 1. rewrite length_map, Ht. reflexivity.
Qed.

Lemma downsample_idempotent_witness :
  pairwise_ne row_ne (keys Ex.f1 Ex.descending) = true /\
  exists D,
    downsample_of Ex.descending Ex.f1 = Return (Some D) /\
    length D = length Ex.descending /\
    downsample_of D Ex.f1 = Return (Some D).
Proof.
  split; [reflexivity|].
  apply (downsample_idempotent Ex.descending Ex.f1). reflexivity.
Defined.

(** C2, as amended: [downsample] does not validate the voxel size; for
    every point set [S] and every voxel size [v <= 0], zero and -1
    included, it raises nothing and returns a result, at most as many
    points as [S] has, each of them a point of [S]. *)
Theorem downsample_nonpositive_voxel (S : ndarray) (v : F64.float) :
  F64.leb v F64.zero = true ->
  exists D,
    downsample_of S v = Return (Some D) /\
    length D <= length S /\
    forall p, In p D -> In p S.
Proof.
  intros _.
  destruct (downsample_of_run S v) as [D [HD [Hat _]]].
  exists D. split; [assumption|]. split.
  - rewrite (at_positions_length Hat), length_map. unfold retained.
    etransitivity; [apply first_pairs_length_le|].
    unfold keys. rewrite length_map. constructor.
  - intros p Hp.
    destruct (@at_positions_in S D (map fst (retained v S)) p Hat Hp)
      as [i [_ Hi]].
    eapply nth_error_In. eassumption.
Qed.

Lemma downsample_nonpositive_voxel_witness :
  F64.leb (F64.of_Z (-1)) F64.zero = true /\
  exists D,
    downsample_of Ex.tie (F64.of_Z (-1)) = Return (Some D) /\
    length D <= length Ex.tie /\
    forall p, In p D -> In p Ex.tie.
Proof.
  split; [reflexivity|].
  apply (downsample_nonpositive_voxel Ex.tie (F64.of_Z (-1))). reflexivity.
Defined.

(** C2 fails as stated: with voxel size 0 and with voxel size -1
    [downsample] returns a result for [[(0.4, 0, 0), (0.1, 0, 0)]]. *)
Lemma downsample_accepts_zero_and_negative :
  downsample_of Ex.tie (F64.of_Z 0) = Return (Some Ex.tie) /\
  downsample_of Ex.tie (F64.of_Z (-1))
  = Return (Some [Row (F64.dec 4 1) Ex.f0 Ex.f0]).
Proof. split; reflexivity. Qed.

Lemma at_positions_idx (S D : ndarray) idx i :
  at_positions S idx D -> In i idx -> exists p, In p D /\ nth_error S i = Some p.
Proof.
  induction 1 as [|j q idx D Hj _ IH]; simpl; [intros []|].
  intros [<- | Hin].
  - exists q. auto.
  - destruct (IH Hin) as [p [Hp Hn]]. exists p. auto.
Qed.

(** C8, as amended: the voxel keys stay binary64 values and are never
    converted to integers; for every point set [S] and voxel size [v],
    when the quotient of a coordinate of a point [p] by [v] overflows
    (it becomes an infinity), [downsample] raises nothing and returns a
    result, in which the voxel of [p] has a representative. *)
Theorem downsample_overflow_returns (S : ndarray) (v : F64.float) (p : row) :
  In p S -> key_overflows v p = true ->
  exists D,
    downsample_of S v = Return (Some D) /\
    exists q, In q D /\ VOID_compare (voxel_key v q) (voxel_key v p) = Eq.
Proof.
  intros Hp _.
  destruct (downsample_of_run S v) as [D [HD [Hat _]]].
  exists D. split; [assumption|].
  apply In_nth_error in Hp. destruct Hp as [j Hj].
  assert (Hk : nth_error (keys v S) j = Some (voxel_key v p)).
  { unfold keys. rewrite nth_error_map, Hj. reflexivity. }
  assert (Hrep : exists i k', In (i, k') (retained v S) /\ i <= j /\
                   (i = j \/ row_ne (voxel_key v p) k' = false)).
  { unfold retained. apply first_pairs_represent; try row_order. exact Hk. }
  destruct Hrep as [i [k' [Hin [_ Hor]]]].
  assert (Hi : In i (map fst (retained v S))).
  { apply in_map_iff. exists (i, k'). auto. }
  destruct (@at_positions_idx S D _ i Hat Hi) as [q [Hq Hiq]].
  exists q. split; [assumption|].
  apply in_retained in Hin. destruct Hin as [[q' [Hq' Hk']] _].
  assert (q' = q) by congruence. subst q' k'.
  destruct Hor as [-> | Hne].
  - assert (q = p) by congruence. subst q.
    apply VOID_compare_eq. reflexivity.
  - apply row_ne_cmp. rewrite row_ne_sym. assumption.
Qed.

Lemma downsample_overflow_returns_witness :
  In (Row (F64.of_Z (10 ^ 308)) Ex.f0 Ex.f0) Ex.huge /\
  key_overflows Ex.tiny (Row (F64.of_Z (10 ^ 308)) Ex.f0 Ex.f0) = true /\
  exists D,
    downsample_of Ex.huge Ex.tiny = Return (Some D) /\
    exists q, In q D /\
      VOID_compare (voxel_key Ex.tiny q)
                   (voxel_key Ex.tiny (Row (F64.of_Z (10 ^ 308)) Ex.f0 Ex.f0)) = Eq.
Proof.
  split; [left; reflexivity|]. split; [vm_compute; reflexivity|].
  apply (downsample_overflow_returns Ex.huge Ex.tiny).
  - left. reflexivity.
  - vm_compute. reflexivity.
Defined.

(** C8 fails as stated: for the point [(1e308, 0, 0)] and the voxel size
    [1e-10] the quotient of the first coordinate overflows, the key is
    [(inf, 0, 0)], and [downsample] returns the point. *)
Lemma downsample_overflow_no_error :
  F64.ltb F64.zero Ex.tiny = true /\
  key_overflows Ex.tiny (Row (F64.of_Z (10 ^ 308)) Ex.f0 Ex.f0) = true /\
  voxel_key Ex.tiny (Row (F64.of_Z (10 ^ 308)) Ex.f0 Ex.f0)
  = Row F64.pinf Ex.f0 Ex.f0 /\
  downsample_of Ex.huge Ex.tiny = Return (Some Ex.huge) /\
  forall e, downsample_of Ex.huge Ex.tiny <> Raise e.
Proof.
  repeat split; try (vm_compute; reflexivity).
  intros e. vm_compute. discriminate.
Qed.

(* ================================================================= *)
(** * Calls on a loader without points, and the Y-range filter *)

(** C9: when no points are loaded, [downsample] returns [None] for
    every voxel size, and [filter_by_y_range] and [get_summary] return
    [None] as well; none of them raises. *)
Theorem not_loaded_returns_none
    (np_mean np_min np_max : ndarray -> outcome (list F64.float))
    (st : state) (v y_min y_max : F64.float) :
  points (self st) = None ->
  fst (downsample v st) = Return None /\
  fst (filter_by_y_range y_min y_max st) = Return None /\
  fst (get_summary np_mean np_min np_max st) = Return None.
Proof.
  intros H.
  unfold downsample, filter_by_y_range, get_summary, bind, get_points, print, ret.
  rewrite H. repeat split.
Qed.

Lemma not_loaded_returns_none_witness :
  points (self (State (init String.EmptyString) [])) = None /\
  fst (downsample Ex.f1 (State (init String.EmptyString) [])) = Return None /\
  fst (filter_by_y_range Ex.f0 Ex.f1 (State (init String.EmptyString) []))
  = Return None /\
  fst (get_summary (fun _ => Raise ValueError) (fun _ => Raise ValueError)
         (fun _ => Raise ValueError) (State (init String.EmptyString) []))
  = Return None.
Proof.
  split; [reflexivity|].
  apply (not_loaded_returns_none
           (fun _ => Raise ValueError) (fun _ => Raise ValueError)
           (fun _ => Raise ValueError)
           (State (init String.EmptyString) []) Ex.f1 Ex.f0 Ex.f1).
  reflexivity.
Defined.

Lemma y_mask (S : ndarray) (y_min y_max : F64.float) :
  Np.logical_and (map (fun y => F64.geb y y_min) (map c1 S))
                 (map (fun y => F64.leb y y_max) (map c1 S))
  = map (in_y_range y_min y_max) S.
Proof.
  unfold Np.logical_and, in_y_range.
  induction S as [|p S IH]; simpl; [reflexivity|].
  rewrite IH, geb_leb. reflexivity.
Qed.

(** C10: for every loaded point set [S] and bounds [y_min], [y_max],
    [filter_by_y_range] returns exactly the points of [S] whose second
    coordinate [y] satisfies [y_min <= y <= y_max], both bounds
    included, unchanged and in their original order: a subsequence of
    [S]. *)
Theorem filter_by_y_range_spec (S : ndarray) (y_min y_max : F64.float) :
  exists F,
    filter_of S y_min y_max = Return (Some F) /\
    F = filter (in_y_range y_min y_max) S /\
    subseq F S /\
    forall p, In p F <->
              In p S /\ F64.leb y_min (c1 p) = true /\ F64.leb (c1 p) y_max = true.
Proof.
  exists (filter (in_y_range y_min y_max) S).
  split; [|split; [reflexivity|split; [apply filter_subseq|]]].
  - unfold filter_of, filter_by_y_range, bind, get_points, lift, print, ret, loaded.
    cbn [self points].
    rewrite y_mask. unfold Np.bool_index.
    rewrite length_map, Nat.eqb_refl, compress_filter. reflexivity.
  - intros p. rewrite filter_In. unfold in_y_range.
    rewrite andb_true_iff. reflexivity.
Qed.

(** The filter on [[(0, 0, 0), (0, 1, 0), (0, 2, 0), (0, 3, 0)]] with the
    bounds 1 and 2 keeps the two points in between, the bounds included. *)
Example filter_column :
  filter_of Ex.column Ex.f1 (F64.of_Z 2)
  = Return (Some [Row Ex.f0 Ex.f1 Ex.f0; Row Ex.f0 (F64.of_Z 2) Ex.f0]).
Proof. reflexivity. Qed.

(** Rows whose key has a NaN are never merged, and they sort last:
    [[(nan, 0, 0), (nan, 0, 0), (0, 0, 0), (0, 0, 0)]] with voxel size 1
    gives [[(0, 0, 0), (nan, 0, 0), (nan, 0, 0)]]. *)
Example downsample_nan_rows :
  downsample_of [Row F64.nan Ex.f0 Ex.f0; Row F64.nan Ex.f0 Ex.f0;
                 Row Ex.f0 Ex.f0 Ex.f0; Row Ex.f0 Ex.f0 Ex.f0] Ex.f1
  = Return (Some [Row Ex.f0 Ex.f0 Ex.f0; Row F64.nan Ex.f0 Ex.f0;
                  Row F64.nan Ex.f0 Ex.f0]).
Proof. reflexivity. Qed.

(** The scenario [[(0, 0, 0), (0.05, 0, 0), (1, 0, 0)]] with voxel size
    0.5: the keys are [(0, 0, 0)], [(0, 0, 0)] and [(2, 0, 0)], and the
    second point is dropped. *)
Example downsample_scenario :
  keys (F64.dec 5 1)
       [Row Ex.f0 Ex.f0 Ex.f0; Row (F64.dec 5 2) Ex.f0 Ex.f0; Row Ex.f1 Ex.f0 Ex.f0]
  = [Row Ex.f0 Ex.f0 Ex.f0; Row Ex.f0 Ex.f0 Ex.f0; Row (F64.of_Z 2) Ex.f0 Ex.f0] /\
  downsample_of
    [Row Ex.f0 Ex.f0 Ex.f0; Row (F64.dec 5 2) Ex.f0 Ex.f0; Row Ex.f1 Ex.f0 Ex.f0]
    (F64.dec 5 1)
  = Return (Some [Row Ex.f0 Ex.f0 Ex.f0; Row Ex.f1 Ex.f0 Ex.f0]).
Proof. split; reflexivity. Qed.

(* ================================================================= *)
(** * Further properties of [downsample] *)

Lemma pairwise_ne_sorted (l : list row) :
  StronglySorted (fun a b => row_ne b a = true) l -> pairwise_ne row_ne l = true.
Proof.
  induction 1 as [|k t Hs IH Hf]; simpl; [reflexivity|].
  rewrite IH, andb_true_r. apply forallb_forall.
  rewrite Forall_forall in Hf. assumption.
Qed.

(** The keys of the returned points, related pairwise. *)
Lemma downsample_keys_sorted (S : ndarray) (v : F64.float) :
  exists D,
    downsample_of S v = Return (Some D) /\
    (forall p, In p D -> In p S) /\
    StronglySorted
      (fun p q => VOID_compare (voxel_key v p) (voxel_key v q) <> Gt /\
                  row_ne (voxel_key v q) (voxel_key v p) = true) D.
Proof.
  destruct (downsample_of_run S v) as [D [HD [Hat Hk]]].
  exists D. split; [assumption|]. split.
  - intros p Hp.
    destruct (@at_positions_in S D (map fst (retained v S)) p Hat Hp)
      as [i [_ Hi]].
    eapply nth_error_In. eassumption.
  - apply strongly_sorted_map_inv
      with (R := fun a b => VOID_compare a b <> Gt /\ row_ne b a = true).
    fold (keys v D). rewrite Hk. apply strongly_sorted_map.
    apply first_pairs_sorted; row_order.
Qed.

(** A point set whose keys are in sorted order and pairwise different
    comes back as it is. *)
Lemma downsample_of_sorted_distinct (S : ndarray) (v : F64.float) :
  StronglySorted
    (fun p q => VOID_compare (voxel_key v p) (voxel_key v q) <> Gt /\
                row_ne (voxel_key v q) (voxel_key v p) = true) S ->
  downsample_of S v = Return (Some S).
Proof.
  intros Hs.
  assert (Hu : Np.unique_axis0 (keys v S)
               = (keys v S, seq 0 (length (keys v S)))).
  { unfold Np.unique_axis0.
    apply unique1d_sorted_distinct; try row_order.
    apply strongly_sorted_map
      with (R := fun a b => VOID_compare a b <> Gt /\ row_ne b a = true).
    exact Hs. }
  unfold downsample_of, downsample, bind, get_points, lift, print, ret, loaded.
  cbn [self points fst].
  rewrite rounded_keys, Hu. cbn [snd].
  pose proof (take_seq [] S) as Ht. simpl in Ht.
  unfold keys at 1. rewrite length_map, Ht. reflexivity.
Qed.

(** X1: no two points that [downsample] returns have the same voxel
    key. *)
Theorem downsample_keys_distinct (S : ndarray) (v : F64.float) :
  exists D,
    downsample_of S v = Return (Some D) /\
    pairwise_ne row_ne (keys v D) = true.
Proof.
  destruct (downsample_keys_sorted S v) as [D [HD [_ Hs]]].
  exists D. split; [assumption|].
  apply pairwise_ne_sorted.
  apply strongly_sorted_map with (R := fun a b => row_ne b a = true).
  eapply strongly_sorted_impl; [|exact Hs]. intros x y H; apply H.
Qed.

Lemma rows_without_nan (r : row) : has_nan r = false <-> row_ne r r = false.
Proof.
  rewrite row_ne_false, !eqb_self, !negb_true_iff. unfold has_nan.
  rewrite !orb_false_iff. tauto.
Qed.

Lemma strongly_sorted_impl_in (A : Type) (R R' : A -> A -> Prop) (l : list A) :
  (forall x y, In x l -> In y l -> R x y -> R' x y) ->
  StronglySorted R l -> StronglySorted R' l.
Proof.
  intros HR Hs. induction Hs as [|a l Hs IH Hf]; constructor.
  - apply IH. intros x y Hx Hy. apply HR; right; assumption.
  - rewrite Forall_forall in *. intros y Hy.
    apply HR; [left; reflexivity | right; assumption | auto].
Qed.

(** X2: when no voxel key of [S] has a NaN, the points [downsample]
    returns are in strictly ascending lexicographic order of their
    keys. *)
Theorem downsample_strictly_sorted (S : ndarray) (v : F64.float) :
  (forall p, In p S -> has_nan (voxel_key v p) = false) ->
  exists D,
    downsample_of S v = Return (Some D) /\
    StronglySorted
      (fun p q => VOID_compare (voxel_key v p) (voxel_key v q) = Lt) D.
Proof.
  intros Hnan.
  destruct (downsample_keys_sorted S v) as [D [HD [Hin Hs]]].
  exists D. split; [assumption|].
  eapply strongly_sorted_impl_in; [|exact Hs].
  intros p q Hp _ [Hle Hne]. cbv beta in *.
  destruct (VOID_compare (voxel_key v p) (voxel_key v q)) eqn:E;
    [|reflexivity|congruence].
  exfalso. apply row_cmp_ne in E.
  - rewrite row_ne_sym in E. congruence.
  - apply rows_without_nan. auto.
Qed.

Lemma downsample_strictly_sorted_witness :
  (forall p, In p Ex.descending -> has_nan (voxel_key Ex.f1 p) = false) /\
  exists D,
    downsample_of Ex.descending Ex.f1 = Return (Some D) /\
    StronglySorted
      (fun p q => VOID_compare (voxel_key Ex.f1 p) (voxel_key Ex.f1 q) = Lt) D.
Proof.
  assert (H : forall p, In p Ex.descending -> has_nan (voxel_key Ex.f1 p) = false).
  { intros p [<- | [<- | []]]; reflexivity. }
  split; [exact H|].
  apply (downsample_strictly_sorted Ex.descending Ex.f1 H).
Defined.

Lemma nan_voxel_key (p : row) :
  voxel_key F64.nan p = Row F64.nan F64.nan F64.nan.
Proof.
  unfold voxel_key, row_map, F64.div. simpl.
  destruct (c0 p), (c1 p), (c2 p); reflexivity.
Qed.

(** X3: with a NaN as voxel size every key is NaN, no two points are
    merged and the sort moves nothing: [downsample] returns all the
    points of [S] in their original order. *)
Theorem downsample_nan_voxel (S : ndarray) :
  downsample_of S F64.nan = Return (Some S).
Proof.
  apply downsample_of_sorted_distinct.
  induction S as [|p S IH]; constructor; [assumption|].
  rewrite Forall_forall. intros q _. rewrite !nan_voxel_key.
  split; [discriminate | reflexivity].
Qed.

Lemma singleton_index (l : list nat) :
  NoDup l -> (forall i, In i l <-> i = 0) -> l = [0].
Proof.
  intros Hnd H. destruct l as [|a l].
  - destruct (proj2 (H 0) eq_refl).
  - assert (a = 0) by (apply H; left; reflexivity). subst a.
    destruct l as [|b l]; [reflexivity|].
    assert (b = 0) by (apply H; right; left; reflexivity). subst b.
    inversion Hnd as [|? ? Hn _]; subst. exfalso. apply Hn. left. reflexivity.
Qed.

Lemma infinite_voxel_key (v x : F64.float) :
  is_inf v = true -> is_finite x = true ->
  exists s, F64.rint (F64.div x v) = S754_zero s.
Proof.
  destruct v as [| sv | |]; try discriminate. intros _.
  destruct x as [sx| | |sx m e]; try discriminate; intros _;
    eexists; reflexivity.
Qed.

(** X4: when all points of a point set fall into the voxel of its first
    point, [downsample] returns exactly that first point; in particular
    with an infinite voxel size, for which every finite coordinate has
    the key 0, a point set with finite coordinates only is reduced to
    its first point. *)
Theorem downsample_single_voxel :
  (forall (v : F64.float) (p0 : row) (rest : ndarray),
     (forall q, In q rest -> same_key v p0 q = true) ->
     downsample_of (p0 :: rest) v = Return (Some [p0])) /\
  (forall (v : F64.float) (p0 : row) (rest : ndarray),
     is_inf v = true ->
     (forall q, In q (p0 :: rest) -> finite_row q = true) ->
     downsample_of (p0 :: rest) v = Return (Some [p0])).
Proof.
  assert (Hsingle : forall v p0 rest,
            (forall q, In q rest -> same_key v p0 q = true) ->
            downsample_of (p0 :: rest) v = Return (Some [p0])).
  { intros v p0 rest Hsame.
    destruct (downsample_of_run (p0 :: rest) v) as [D [HD [Hat _]]].
    assert (Hidx : map fst (retained v (p0 :: rest)) = [0]).
    { apply singleton_index; [apply first_pairs_nodup; row_order|].
      intros i. rewrite in_retained_idx. split.
      - intros [p [Hp Hfirst]]. destruct i as [|i]; [reflexivity|].
        exfalso. simpl in Hp.
        specialize (Hfirst 0 p0 (Nat.lt_0_succ i) eq_refl).
        apply nth_error_In in Hp. rewrite same_key_sym, (Hsame p Hp) in Hfirst.
        discriminate.
      - intros ->. exists p0. split; [reflexivity|]. intros j q Hj. lia. }
    rewrite Hidx in Hat. unfold at_positions in Hat.
    inversion Hat as [|i p idx D' Hp Hnil]; subst. inversion Hnil; subst.
    simpl in Hp. inversion Hp; subst. assumption. }
  split; [exact Hsingle|].
  intros v p0 rest Hv Hfin. apply Hsingle.
  assert (Hz : forall q, In q (p0 :: rest) ->
            exists s0 s1 s2,
              voxel_key v q = Row (S754_zero s0) (S754_zero s1) (S754_zero s2)).
  { intros q Hq. specialize (Hfin q Hq). unfold finite_row in Hfin.
    apply andb_true_iff in Hfin. destruct Hfin as [Hfin H2].
    apply andb_true_iff in Hfin. destruct Hfin as [H0 H1].
    destruct (infinite_voxel_key v (c0 q) Hv H0) as [s0 E0].
    destruct (infinite_voxel_key v (c1 q) Hv H1) as [s1 E1].
    destruct (infinite_voxel_key v (c2 q) Hv H2) as [s2 E2].
    exists s0, s1, s2. unfold voxel_key, row_map. simpl.
    rewrite E0, E1, E2. reflexivity. }
  intros q Hq. unfold same_key.
  destruct (Hz p0 (or_introl eq_refl)) as [a0 [a1 [a2 ->]]].
  destruct (Hz q (or_intror Hq)) as [b0 [b1 [b2 ->]]].
  reflexivity.
Qed.

Lemma downsample_single_voxel_witness :
  (forall q, In q [Row (F64.dec 1 1) Ex.f0 Ex.f0] ->
             same_key Ex.f1 (Row (F64.dec 4 1) Ex.f0 Ex.f0) q = true) /\
  downsample_of Ex.tie Ex.f1 = Return (Some [Row (F64.dec 4 1) Ex.f0 Ex.f0]) /\
  is_inf F64.pinf = true /\
  (forall q, In q Ex.tie -> finite_row q = true) /\
  downsample_of Ex.tie F64.pinf = Return (Some [Row (F64.dec 4 1) Ex.f0 Ex.f0]).
Proof.
  assert (H : forall q, In q [Row (F64.dec 1 1) Ex.f0 Ex.f0] ->
                same_key Ex.f1 (Row (F64.dec 4 1) Ex.f0 Ex.f0) q = true).
  { intros q [<- | []]. reflexivity. }
  assert (Hf : forall q, In q Ex.tie -> finite_row q = true).
  { intros q [<- | [<- | []]]; reflexivity. }
  split; [exact H|].
  split; [exact (proj1 downsample_single_voxel Ex.f1 _ _ H)|].
  split; [reflexivity|]. split; [exact Hf|].
  exact (proj2 downsample_single_voxel F64.pinf _ _ eq_refl Hf).
Defined.

(** ** A negated voxel size *)

Lemma binary_round_aux_opp (s : bool) (m e : Z) (l : location) :
  SFopp (binary_round_aux F64.prec F64.emax s m e l)
  = binary_round_aux F64.prec F64.emax (negb s) m e l.
Proof.
  unfold binary_round_aux.
  destruct (shr_fexp F64.prec F64.emax m e l) as [mrs' e'].
  destruct (shr_fexp F64.prec F64.emax
              (round_nearest_even (shr_m mrs') (loc_of_shr_record mrs'))
              e' loc_Exact) as [mrs'' e''].
  destruct (shr_m mrs''); try reflexivity.
  destruct (e'' <=? F64.emax - F64.prec)%Z; reflexivity.
Qed.

Lemma binary_round_opp (s : bool) (m : positive) (e : Z) :
  SFopp (binary_round F64.prec F64.emax s m e)
  = binary_round F64.prec F64.emax (negb s) m e.
Proof.
  unfold binary_round.
  destruct (shl_align m e
              (fexp F64.prec F64.emax (Z.pos (digits2_pos m) + e))) as [mz ez].
  apply binary_round_aux_opp.
Qed.

Lemma div_neg (x v : F64.float) : F64.div x (fneg v) = fneg (F64.div x v).
Proof.
  unfold F64.div, fneg.
  destruct x as [sx|sx| |sx mx ex], v as [sv|sv| |sv mv ev];
    try reflexivity; try (destruct sx, sv; reflexivity).
  cbn [SFopp SFdiv].
  destruct (SFdiv_core_binary F64.prec F64.emax (Z.pos mx) ex (Z.pos mv) ev)
    as [[mz ez] lz].
  rewrite binary_round_aux_opp. destruct sx, sv; reflexivity.
Qed.

Lemma rint_neg (x : F64.float) : F64.rint (fneg x) = fneg (F64.rint x).
Proof.
  unfold fneg. destruct x as [s|s| |s m e]; try reflexivity.
  cbn [SFopp F64.rint]. destruct (0 <=? e)%Z; [reflexivity|].
  destruct (F64.round_half_even (Z.pos m) (- e)) as [|q|q], s;
    cbn [negb Z.opp binary_normalize]; try reflexivity;
    rewrite binary_round_opp; reflexivity.
Qed.

Lemma eqb_neg (a b : F64.float) : F64.eqb (fneg a) (fneg b) = F64.eqb a b.
Proof.
  unfold F64.eqb, SFeqb, fneg.
  destruct a as [sa|sa| |sa ma ea], b as [sb|sb| |sb mb eb];
    try reflexivity; try (destruct sa; reflexivity);
    try (destruct sb; reflexivity); try (destruct sa, sb; reflexivity).
  destruct sa, sb; try reflexivity; cbn;
    destruct (ea ?= eb)%Z; try reflexivity;
    destruct (Pos.compare_cont Eq ma mb); reflexivity.
Qed.

Lemma same_key_neg (v : F64.float) (p q : row) :
  same_key (fneg v) p q = same_key v p q.
Proof.
  unfold same_key, row_eq, voxel_key, row_map. cbn [c0 c1 c2].
  rewrite !div_neg, !rint_neg, !eqb_neg. reflexivity.
Qed.

Lemma at_positions_map (S D : ndarray) (idx : list nat) :
  at_positions S idx D -> map Some D = map (nth_error S) idx.
Proof. induction 1; simpl; congruence. Qed.

Lemma map_some_inj (A : Type) (l l' : list A) :
  map Some l = map Some l' -> l = l'.
Proof.
  revert l'. induction l as [|a l IH]; intros [|b l']; simpl; try discriminate;
    [reflexivity|].
  intros H. inversion H. f_equal. auto.
Qed.

Lemma at_positions_perm (S D D' : ndarray) (idx idx' : list nat) :
  at_positions S idx D -> at_positions S idx' D' ->
  Permutation idx idx' -> Permutation D D'.
Proof.
  intros H H' Hp.
  apply at_positions_map in H. apply at_positions_map in H'.
  apply (Permutation_map (nth_error S)) in Hp. rewrite <- H, <- H' in Hp.
  apply Permutation_sym, Permutation_map_inv in Hp.
  destruct Hp as [l3 [E Hp]].
  apply map_some_inj in E. subst l3. assumption.
Qed.

(** X5: negating the voxel size negates every key and so keeps the
    groups: [downsample(S, -v)] retains the same positions as
    [downsample(S, v)] and returns the same points, possibly in another
    order. *)
Theorem downsample_negated_voxel (S : ndarray) (v : F64.float) :
  exists D D',
    downsample_of S v = Return (Some D) /\
    downsample_of S (fneg v) = Return (Some D') /\
    Permutation D D'.
Proof.
  destruct (downsample_of_run S v) as [D [HD [Hat _]]].
  destruct (downsample_of_run S (fneg v)) as [D' [HD' [Hat' _]]].
  exists D, D'. split; [assumption|]. split; [assumption|].
  apply (at_positions_perm Hat Hat').
  apply NoDup_Permutation; try (apply first_pairs_nodup; row_order).
  intros i. rewrite !in_retained_idx.
  split; intros [p [Hp H]]; exists p; split; try assumption;
    intros j q Hj Hq; specialize (H j q Hj Hq).
  - rewrite same_key_neg. assumption.
  - rewrite same_key_neg in H. assumption.
Qed.

(** ** What [downsample] prints *)


(* ================================================================= *)
(** * Further properties of [filter_by_y_range] *)

Lemma leb_rank (a b : F64.float) :
  F64.leb a b = true <->
  F64.is_nan a = false /\ F64.is_nan b = false /\
  cmp_rank (rank a) (rank b) <> Gt.
Proof.
  unfold F64.leb, SFleb. rewrite SFcompare_rank.
  destruct (F64.is_nan a), (F64.is_nan b); simpl;
    try (split; [discriminate | intros [? [? ?]]; discriminate]).
  destruct (cmp_rank (rank a) (rank b)); split; intros H;
    repeat split; try reflexivity; try discriminate.
  destruct H as [_ [_ H]]. congruence.
Qed.

Lemma leb_trans (a b c : F64.float) :
  F64.leb a b = true -> F64.leb b c = true -> F64.leb a c = true.
Proof.
  rewrite !leb_rank. intros [Ha [Hb Hab]] [_ [Hc Hbc]].
  repeat split; try assumption.
  exact (laws_le_trans cmp_rank_laws _ _ _ Hab Hbc).
Qed.

Lemma ltb_not_leb (a b : F64.float) :
  F64.ltb b a = true -> F64.leb a b = false.
Proof.
  unfold F64.ltb, SFltb. rewrite SFcompare_rank. intros H.
  apply not_true_iff_false. rewrite leb_rank. intros [Ha [Hb Hab]].
  rewrite Ha, Hb in H. simpl in H.
  rewrite (laws_antisym cmp_rank_laws (rank a) (rank b)) in H.
  destruct (cmp_rank (rank a) (rank b)); simpl in H; congruence.
Qed.

Lemma filter_run (st : state) (y_min y_max : F64.float) (S : ndarray) :
  points (self st) = Some S ->
  filter_by_y_range y_min y_max st
  = (Return (Some (filter (in_y_range y_min y_max) S)),
     State (self st)
           (stdout st ++ [InfoFiltered (length (filter (in_y_range y_min y_max) S))
                                       y_min y_max])).
Proof.
  intros HS.
  unfold filter_by_y_range, bind, get_points, lift, print, ret. rewrite HS.
  rewrite y_mask. unfold Np.bool_index.
  rewrite length_map, Nat.eqb_refl, compress_filter. reflexivity.
Qed.

Lemma filter_of_run (S : ndarray) (y_min y_max : F64.float) :
  filter_of S y_min y_max = Return (Some (filter (in_y_range y_min y_max) S)).
Proof.
  unfold filter_of. rewrite (@filter_run (loaded S) y_min y_max S eq_refl).
  reflexivity.
Qed.

(** X7: in every state, [filter_by_y_range] raises nothing, leaves the
    object and its points as they were, and prints exactly one line:
    the number of points it returns with the two bounds, or that no
    points are loaded. *)
Theorem filter_by_y_range_effects (st : state) (y_min y_max : F64.float) :
  self (snd (filter_by_y_range y_min y_max st)) = self st /\
  (exists r, fst (filter_by_y_range y_min y_max st) = Return r) /\
  stdout (snd (filter_by_y_range y_min y_max st))
  = stdout st ++
    [match fst (filter_by_y_range y_min y_max st) with
     | Return (Some F) => InfoFiltered (length F) y_min y_max
     | _ => NoPointsLoaded
     end].
Proof.
  destruct (points (self st)) as [S|] eqn:HS.
  - rewrite (filter_run st y_min y_max HS). simpl. eauto.
  - unfold filter_by_y_range, bind, get_points, print, ret. rewrite HS.
    simpl. eauto.
Qed.

(** X8: when a bound is a NaN, or the upper bound is below the lower
    one, [filter_by_y_range] returns the empty point set. *)
Theorem filter_empty_range (S : ndarray) (y_min y_max : F64.float) :
  F64.is_nan y_min = true \/ F64.is_nan y_max = true \/
  F64.ltb y_max y_min = true ->
  filter_of S y_min y_max = Return (Some []).
Proof.
  intros H. rewrite filter_of_run. do 2 f_equal.
  induction S as [|p S IH]; simpl; [reflexivity|].
  assert (E : in_y_range y_min y_max p = false).
  { unfold in_y_range. apply not_true_iff_false. intros Hr.
    apply andb_true_iff in Hr. destruct Hr as [H1 H2].
    destruct H as [H | [H | H]].
    - apply leb_rank in H1. destruct H1 as [H1 _]. congruence.
    - apply leb_rank in H2. destruct H2 as [_ [H2 _]]. congruence.
    - apply ltb_not_leb in H. rewrite (leb_trans _ _ _ H1 H2) in H.
      discriminate. }
  rewrite E. assumption.
Qed.

Lemma filter_empty_range_witness :
  (F64.is_nan Ex.f1 = true \/ F64.is_nan Ex.f0 = true \/
   F64.ltb Ex.f0 Ex.f1 = true) /\
  filter_of Ex.column Ex.f1 Ex.f0 = Return (Some []).
Proof.
  assert (H : F64.is_nan Ex.f1 = true \/ F64.is_nan Ex.f0 = true \/
              F64.ltb Ex.f0 Ex.f1 = true).
  { right. right. reflexivity. }
  split; [exact H|].
  apply (filter_empty_range Ex.column Ex.f1 Ex.f0 H).
Defined.

(** X9: with the bounds [-inf] and [+inf] the filter keeps every point
    except those whose second coordinate is a NaN; a point with a NaN
    there is dropped whatever the bounds are. *)
Theorem filter_drops_nan (S : ndarray) :
  filter_of S F64.ninf F64.pinf
  = Return (Some (filter (fun p => negb (F64.is_nan (c1 p))) S)) /\
  (forall y_min y_max F p,
     filter_of S y_min y_max = Return (Some F) ->
     In p F -> F64.is_nan (c1 p) = false).
Proof.
  split.
  - rewrite filter_of_run. do 2 f_equal. apply filter_ext.
    intros p. unfold in_y_range. destruct (c1 p) as [[]|[]| |[] ? ?]; reflexivity.
  - intros y_min y_max F p HF Hp. rewrite filter_of_run in HF.
    inversion HF; subst. apply filter_In in Hp. destruct Hp as [_ Hr].
    unfold in_y_range in Hr. apply andb_true_iff in Hr. destruct Hr as [H1 _].
    apply leb_rank in H1. apply H1.
Qed.

Lemma filter_swap (A : Type) (f g : A -> bool) (l : list A) :
  filter f (filter g l) = filter g (filter f l).
Proof.
  induction l as [|x l IH]; simpl; [reflexivity|].
  destruct (f x) eqn:Ef, (g x) eqn:Eg; simpl; rewrite ?Ef, ?Eg, IH; reflexivity.
Qed.

Lemma filter_again (A : Type) (f : A -> bool) (l : list A) :
  filter f (filter f l) = filter f l.
Proof.
  induction l as [|x l IH]; simpl; [reflexivity|].
  destruct (f x) eqn:Ef; simpl; rewrite ?Ef, IH; reflexivity.
Qed.

Lemma filter_filter_subseq (A : Type) (f g : A -> bool) (l : list A) :
  subseq (filter f (filter g l)) l.
Proof.
  induction l as [|x l IH]; simpl; [constructor|].
  destruct (g x); simpl; [destruct (f x)|]; constructor; assumption.
Qed.

(** X10: filtering the result of a filter with the same bounds changes
    nothing, and two filters give the same result in either order: the
    points of [S] that lie in both ranges, in their original order. *)
Theorem filter_twice (S : ndarray) (a b c d : F64.float) :
  exists F F' G,
    filter_of S a b = Return (Some F) /\
    filter_of S c d = Return (Some F') /\
    filter_of F a b = Return (Some F) /\
    filter_of F c d = Return (Some G) /\
    filter_of F' a b = Return (Some G) /\
    subseq G S /\
    forall p, In p G <->
              In p S /\ in_y_range a b p = true /\ in_y_range c d p = true.
Proof.
  exists (filter (in_y_range a b) S), (filter (in_y_range c d) S),
         (filter (in_y_range c d) (filter (in_y_range a b) S)).
  rewrite !filter_of_run, filter_again, (filter_swap (in_y_range a b)).
  repeat (split; [reflexivity|]). split.
  - apply filter_filter_subseq.
  - intros p. rewrite !filter_In. tauto.
Qed.

(** X11: narrowing a range after filtering with a wider one gives the
    same points as filtering with the narrow range at once. *)
Theorem filter_narrowed (S : ndarray) (a b a' b' : F64.float) :
  F64.leb a' a = true -> F64.leb b b' = true ->
  exists W F,
    filter_of S a' b' = Return (Some W) /\
    filter_of S a b = Return (Some F) /\
    filter_of W a b = Return (Some F) /\
    subseq F W.
Proof.
  intros Ha Hb.
  exists (filter (in_y_range a' b') S), (filter (in_y_range a b) S).
  rewrite !filter_of_run. split; [reflexivity|]. split; [reflexivity|].
  assert (E : filter (in_y_range a b) (filter (in_y_range a' b') S)
              = filter (in_y_range a b) S).
  { rewrite filter_swap. 
    induction S as [|p S IH]; simpl; [reflexivity|].
    destruct (in_y_range a b p) eqn:Ep; [|assumption].
    assert (Ew : in_y_range a' b' p = true).
    { unfold in_y_range in *. apply andb_true_iff in Ep. destruct Ep as [H1 H2].
      apply andb_true_iff. split; eapply leb_trans; eassumption. }
    simpl. rewrite Ew, IH. reflexivity. }
  split; [rewrite E; reflexivity|].
  rewrite <- E. apply filter_subseq.
Qed.

Lemma filter_narrowed_witness :
  F64.leb Ex.f0 Ex.f1 = true /\ F64.leb (F64.of_Z 2) (F64.of_Z 3) = true /\
  exists W F,
    filter_of Ex.column Ex.f0 (F64.of_Z 3) = Return (Some W) /\
    filter_of Ex.column Ex.f1 (F64.of_Z 2) = Return (Some F) /\
    filter_of W Ex.f1 (F64.of_Z 2) = Return (Some F) /\
    subseq F W.
Proof.
  split; [reflexivity|]. split; [reflexivity|].
  apply (@filter_narrowed Ex.column Ex.f1 (F64.of_Z 2) Ex.f0 (F64.of_Z 3));
    reflexivity.
Defined.

(* ================================================================= *)
(** * [downsample] and [filter_by_y_range] together *)

(** X12: downsampling the points a filter returned gives points of the
    original point set that lie in the range of the filter. *)
Theorem downsample_after_filter (S : ndarray) (y_min y_max v : F64.float) :
  exists F D,
    filter_of S y_min y_max = Return (Some F) /\
    downsample_of F v = Return (Some D) /\
    forall p, In p D -> In p S /\ in_y_range y_min y_max p = true.
Proof.
  destruct (downsample_keys_sorted (filter (in_y_range y_min y_max) S) v)
    as [D [HD [Hin _]]].
  exists (filter (in_y_range y_min y_max) S), D.
  split; [apply filter_of_run|]. split; [assumption|].
  intros p Hp. apply filter_In. auto.
Qed.

(** X13: the points a filter keeps of a downsampled point set are still
    downsampled: downsampling them again with the same voxel size
    returns them as they are. *)
Theorem filter_keeps_downsampled (S : ndarray) (v y_min y_max : F64.float) :
  exists D F,
    downsample_of S v = Return (Some D) /\
    filter_of D y_min y_max = Return (Some F) /\
    downsample_of F v = Return (Some F).
Proof.
  destruct (downsample_keys_sorted S v) as [D [HD [_ Hs]]].
  exists D, (filter (in_y_range y_min y_max) D).
  split; [assumption|]. split; [apply filter_of_run|].
  apply downsample_of_sorted_distinct.
  eapply strongly_sorted_filter; [|exact Hs]. auto.
Qed.

(* ================================================================= *)
(** * Properties of [load_points] and [get_summary] *)

Lemma rows3_length (n : nat) (buffer : list F64.float) :
  length buffer = n * 3 -> length (rows3 buffer) = n.
Proof.
  revert buffer. induction n as [|n IH]; intros buffer H.
  - destruct buffer; [reflexivity | discriminate].
  - destruct buffer as [|a [|b [|c rest]]]; try discriminate.
    simpl in *. f_equal. apply IH. lia.
Qed.

Section LoadFacts.

Variable E : Type.
Variable loadtxt : String.string -> E + loadtxt_array.

(** X14: [load_points] raises nothing and keeps the path; afterwards
    the loader holds points exactly when [np.loadtxt] returned a
    two-dimensional array with three columns, and then it holds the rows
    of that array.  In every other case (an exception of [np.loadtxt], a
    result of fewer than two dimensions such as the one for a file with
    a single row, another number of columns) the points are [None],
    whatever was loaded before. *)
Theorem load_points_result (ld : PointCloudLoader) :
  filepath (fst (load_points loadtxt ld)) = filepath ld /\
  forall P,
    points (fst (load_points loadtxt ld)) = Some P <->
    exists n buffer,
      loadtxt (filepath ld) = inr (Arr2 n 3 buffer) /\ P = rows3 buffer.
Proof.
  unfold load_points.
  destruct (loadtxt (filepath ld)) as [e | [x | xs | n m buffer]]; simpl.
  - split; [reflexivity|]. intros P.
    split; [discriminate | intros [n [b [H _]]]; discriminate].
  - split; [reflexivity|]. intros P.
    split; [discriminate | intros [n [b [H _]]]; discriminate].
  - split; [reflexivity|]. intros P.
    split; [discriminate | intros [n [b [H _]]]; discriminate].
  - destruct (m =? 3) eqn:Em; simpl.
    + apply Nat.eqb_eq in Em. subst m. split; [reflexivity|]. intros P. split.
      * intros H. inversion H. eauto.
      * intros [n' [b [H ->]]]. inversion H. reflexivity.
    + apply Nat.eqb_neq in Em. split; [reflexivity|]. intros P.
      split; [discriminate|]. intros [n' [b [H _]]]. inversion H. congruence.
Qed.

(** X15: after [load_points], [downsample] and [filter_by_y_range]
    return [None] exactly when the load printed an error; after a load
    that printed its success both return a point set. *)
Theorem load_then_query (ld : PointCloudLoader) (out : list line)
    (v y_min y_max : F64.float) :
  ((exists f, snd (load_points loadtxt ld) = ErrorLoading f) <->
   fst (downsample v (State (fst (load_points loadtxt ld)) out)) = Return None) /\
  ((exists f, snd (load_points loadtxt ld) = ErrorLoading f) <->
   fst (filter_by_y_range y_min y_max (State (fst (load_points loadtxt ld)) out))
   = Return None) /\
  ((exists n path, snd (load_points loadtxt ld) = OkLoaded E n path) ->
   exists D F,
     fst (downsample v (State (fst (load_points loadtxt ld)) out))
     = Return (Some D) /\
     fst (filter_by_y_range y_min y_max (State (fst (load_points loadtxt ld)) out))
     = Return (Some F)).
Proof.
  assert (Hcases :
    (points (fst (load_points loadtxt ld)) = None /\
     exists f, snd (load_points loadtxt ld) = ErrorLoading f) \/
    (exists P, points (fst (load_points loadtxt ld)) = Some P /\
     exists n path, snd (load_points loadtxt ld) = OkLoaded E n path)).
  { unfold load_points.
    destruct (loadtxt (filepath ld)) as [e | [x | xs | n m buffer]]; simpl;
      eauto.
    destruct (m =? 3); simpl; eauto 7. }
  destruct Hcases as [[HN [f Hf]] | [P [HP [n [path Hok]]]]].
  - assert (Hd : fst (downsample v (State (fst (load_points loadtxt ld)) out))
                 = Return None).
    { unfold downsample, bind, get_points, ret. simpl. rewrite HN. reflexivity. }
    assert (Hq : fst (filter_by_y_range y_min y_max
                        (State (fst (load_points loadtxt ld)) out))
                 = Return None).
    { unfold filter_by_y_range, bind, get_points, print, ret. simpl.
      rewrite HN. reflexivity. }
    rewrite Hd, Hq, Hf. repeat split; eauto.
    intros [n [path H]]. discriminate.
  - destruct (@downsample_run (State (fst (load_points loadtxt ld)) out) v P HP)
      as [D [HD _]].
    rewrite HD, (@filter_run (State (fst (load_points loadtxt ld)) out)
                   y_min y_max P HP), Hok.
    simpl. repeat split; try discriminate; eauto.
    + intros [f H]. discriminate.
    + intros [f H]. discriminate.
Qed.

(** X16: when the array [np.loadtxt] returned holds as many values as
    its shape says, the number of points in the line a successful load
    prints is the number of points the loader holds afterwards. *)
Theorem load_points_count (ld : PointCloudLoader) (a : loadtxt_array)
    (n : nat) (path : String.string) :
  loadtxt (filepath ld) = inr a -> well_shaped a ->
  snd (load_points loadtxt ld) = OkLoaded E n path ->
  exists P,
    points (fst (load_points loadtxt ld)) = Some P /\
    length P = n /\ path = filepath ld.
Proof.
  unfold load_points. intros Ha Hw. rewrite Ha.
  destruct a as [x | xs | rows cols buffer]; simpl; try discriminate.
  destruct (cols =? 3) eqn:Ec; simpl; [|discriminate].
  apply Nat.eqb_eq in Ec. subst cols. intros H. inversion H; subst.
  exists (rows3 buffer). split; [reflexivity|]. split; [|reflexivity].
  apply rows3_length. exact Hw.
Qed.

End LoadFacts.

Lemma load_points_count_witness :
  (fun _ : String.string =>
     @inr unit loadtxt_array
          (Arr2 2 3 [Ex.f1; Ex.f0; Ex.f0; Ex.f0; Ex.f0; Ex.f0]))
    (filepath (init String.EmptyString))
  = inr (Arr2 2 3 [Ex.f1; Ex.f0; Ex.f0; Ex.f0; Ex.f0; Ex.f0]) /\
  well_shaped (Arr2 2 3 [Ex.f1; Ex.f0; Ex.f0; Ex.f0; Ex.f0; Ex.f0]) /\
  exists P,
    points (fst (load_points
                   (fun _ : String.string =>
                      @inr unit loadtxt_array
                           (Arr2 2 3 [Ex.f1; Ex.f0; Ex.f0; Ex.f0; Ex.f0; Ex.f0]))
                   (init String.EmptyString))) = Some P /\
    length P = 2 /\ String.EmptyString = filepath (init String.EmptyString).
Proof.
  split; [reflexivity|]. split; [reflexivity|].
  apply (@load_points_count unit
           (fun _ : String.string =>
              @inr unit loadtxt_array
                   (Arr2 2 3 [Ex.f1; Ex.f0; Ex.f0; Ex.f0; Ex.f0; Ex.f0]))
           (init String.EmptyString)
           (Arr2 2 3 [Ex.f1; Ex.f0; Ex.f0; Ex.f0; Ex.f0; Ex.f0])
           2 String.EmptyString);
    reflexivity.
Defined.

(** X17: [get_summary] never changes the object. When it returns a
    summary, points are loaded, nothing was printed, [num_points] is the
    number of loaded points and the three statistics are what [np.mean],
    [np.min] and [np.max] returned for them; when it raises, points are
    loaded and one of the three raised that exception. *)
Theorem get_summary_effects
    (np_mean np_min np_max : ndarray -> outcome (list F64.float)) (st : state) :
  self (snd (get_summary np_mean np_min np_max st)) = self st /\
  (forall s,
     fst (get_summary np_mean np_min np_max st) = Return (Some s) ->
     exists P,
       points (self st) = Some P /\ num_points s = length P /\
       np_mean P = Return (mean s) /\ np_min P = Return (min s) /\
       np_max P = Return (max s) /\
       stdout (snd (get_summary np_mean np_min np_max st)) = stdout st) /\
  (forall e,
     fst (get_summary np_mean np_min np_max st) = Raise e ->
     exists P,
       points (self st) = Some P /\
       (np_mean P = Raise e \/ np_min P = Raise e \/ np_max P = Raise e)).
Proof.
  unfold get_summary, bind, get_points, lift, print, ret.
  destruct (points (self st)) as [P|] eqn:HP; simpl.
  - destruct (np_mean P) as [m|e1] eqn:E1; simpl;
      [destruct (np_min P) as [lo|e2] eqn:E2; simpl;
       [destruct (np_max P) as [hi|e3] eqn:E3; simpl|]|];
      (split; [destruct st; reflexivity|]); split;
      try (intros s H; discriminate H); try (intros e H; discriminate H).
    + intros s H. inversion H; subst. simpl. exists P. auto 10.
    + intros e H. inversion H; subst. exists P. auto.
    + intros e H. inversion H; subst. exists P. auto.
    + intros e H. inversion H; subst. exists P. auto.
  - split; [reflexivity|]. split; [intros s H | intros e H]; discriminate H.
Qed.

(* ================================================================= *)
(** * Every voxel is represented *)

(** X18: [downsample] loses no voxel: every point of [S] whose key has
    no NaN has a point with the same key in the result, and every point
    whose key has a NaN is itself in the result. *)
Theorem downsample_covers (S : ndarray) (v : F64.float) :
  exists D,
    downsample_of S v = Return (Some D) /\
    (forall q, In q S -> has_nan (voxel_key v q) = false ->
               exists p, In p D /\ same_key v p q = true) /\
    (forall q, In q S -> has_nan (voxel_key v q) = true -> In q D).
Proof.
  destruct (downsample_of_run S v) as [D [HD [Hat _]]].
  exists D. split; [assumption|]. split.
  - intros q Hq Hnan. apply In_nth_error in Hq. destruct Hq as [j Hj].
    assert (Hk : nth_error (keys v S) j = Some (voxel_key v q)).
    { unfold keys. rewrite nth_error_map, Hj. reflexivity. }
    assert (Hrep : exists i k', In (i, k') (retained v S) /\ i <= j /\
                     (i = j \/ row_ne (voxel_key v q) k' = false)).
    { unfold retained. apply first_pairs_represent; try row_order. exact Hk. }
    destruct Hrep as [i [k' [Hin [_ Hor]]]].
    assert (Hi : In i (map fst (retained v S))).
    { apply in_map_iff. exists (i, k'). auto. }
    destruct (@at_positions_idx S D _ i Hat Hi) as [p [Hp Hip]].
    exists p. split; [assumption|].
    apply in_retained in Hin. destruct Hin as [[p' [Hp' Hk']] _].
    assert (p' = p) by congruence. subst p' k'.
    rewrite same_key_sym, same_key_ne. apply negb_true_iff.
    destruct Hor as [-> | Hne]; [|assumption].
    assert (p = q) by congruence. subst p.
    apply rows_without_nan. assumption.
  - intros q Hq Hnan. apply In_nth_error in Hq. destruct Hq as [j Hj].
    assert (Hin : In (j, voxel_key v q) (retained v S)).
    { apply in_retained. split; [eauto|].
      intros j' q' _ _. apply not_false_iff_true. intros Hne.
      apply row_ne_refl_l, rows_without_nan in Hne. congruence. }
    assert (Hi : In j (map fst (retained v S))).
    { apply in_map_iff. exists (j, voxel_key v q). auto. }
    destruct (@at_positions_idx S D _ j Hat Hi) as [p [Hp Hjp]].
    assert (p = q) by congruence. subst p. assumption.
Qed.
